(** * embedded.io content scripts: extraction and merge pipeline

    A shallow embedding of the Python scripts under [script/]
    ([recruitments.py], [events.py], [facebook_posts.py], [news.py],
    [companies.py], [roles_and_badges.py], [blogs.py]) and the properties
    of their text extraction, enrichment and store merging.

    Conventions of the embedding:
    - a Python [str] is a [string]; a character is a code point below 256,
      and the character classes below are Python's on that range;
    - a JSON object is a [gmap string value], so that [=] on values is
      Python's [==] (field order is irrelevant);
    - an exception is an [exn] carried by [outcome]; a mutable list that
      survives an exception is returned next to the outcome;
    - a printed line is recorded as a [message]: its format together with
      the value interpolated into it. *)

From Stdlib Require Import Ascii String DecimalString DecimalNat DecimalFacts.
From stdpp Require Import gmap strings list fin_maps.

#[local] Set Warnings "-register-all".
#[local] Open Scope stdpp_scope.

(** ** Python values and exceptions *)

Module Py.

(** What [json.load] yields in these stores: null, strings, arrays and
    objects. *)
Inductive value :=
| VNone
| VStr (s : string)
| VList (l : list value)
| VDict (d : gmap string value).

Fixpoint value_eq_dec (v1 v2 : value) {struct v1} : Decision (v1 = v2).
Proof.
  refine (match v1, v2 with
  | VNone, VNone => left _
  | VStr s, VStr t => cast_if (decide (s = t))
  | VList l, VList m => cast_if (@list_eq_dec _ value_eq_dec l m)
  | VDict d, VDict e => cast_if (@gmap_eq_dec _ _ _ _ value_eq_dec d e)
  | _, _ => right _
  end); abstract congruence.
Defined.
#[global] Instance value_eqdec : EqDecision value := value_eq_dec.

(** A JSON object, i.e. a Python [dict] with string keys. *)
Abbreviation record := (gmap string value).

Inductive exn :=
| KeyError (k : string)
| TypeError
| AttributeError.

Inductive outcome (A : Type) :=
| Ok (a : A)
| Raise (e : exn).
Arguments Ok {A} a.
Arguments Raise {A} e.

Definition bind {A B} (x : outcome A) (f : A -> outcome B) : outcome B :=
  match x with
  | Ok a => f a
  | Raise e => Raise e
  end.

(** [d.get(k)]: the value, or [None]. *)
Definition get (d : record) (k : string) : value :=
  default VNone (d !! k).

(** [d[k]]: the value, or [KeyError]. *)
Definition item (d : record) (k : string) : outcome value :=
  match d !! k with
  | Some v => Ok v
  | None => Raise (KeyError k)
  end.

(** Truth value of an object ([if x], [not x]). *)
Definition truthy (v : value) : bool :=
  match v with
  | VNone => false
  | VStr s => negb (String.eqb s "")
  | VList l => negb (Nat.eqb (length l) 0)
  | VDict d => negb (Nat.eqb (size d) 0)
  end.

(** Keys of a Python [set] or [dict]: only [None] and strings hash;
    lists and dicts raise [TypeError]. *)
Definition hash_key (v : value) : outcome (option string) :=
  match v with
  | VNone => Ok None
  | VStr s => Ok (Some s)
  | VList _ | VDict _ => Raise TypeError
  end.

(** *** Characters *)

Definition code (c : ascii) : N := N_of_ascii c.

Definition in_range (lo hi : ascii) (c : ascii) : bool :=
  (code lo <=? code c)%N && (code c <=? code hi)%N.

(** [str.isspace] on one character, which is also the class [\s]. *)
Definition is_space (c : ascii) : bool :=
  let n := code c in
  ((9 <=? n) && (n <=? 13) || (28 <=? n) && (n <=? 32)
   || (n =? 133) || (n =? 160))%N.

(** The class [\d]. *)
Definition is_digit (c : ascii) : bool := in_range "0" "9" c.

Definition lower_char (c : ascii) : ascii :=
  let n := code c in
  if ((65 <=? n) && (n <=? 90)
      || (192 <=? n) && (n <=? 222) && negb (n =? 215))%N
  then ascii_of_N (n + 32) else c.

(** Upper case of one character; the micro sign, the sharp s and the y with
    diaeresis, whose upper case is not one character below 256, are left
    alone (the scripts upper-case only what [id_pattern] matched). *)
Definition upper_char (c : ascii) : ascii :=
  let n := code c in
  if ((97 <=? n) && (n <=? 122)
      || (224 <=? n) && (n <=? 254) && negb (n =? 247))%N
  then ascii_of_N (n - 32) else c.

(** *** Strings *)

Fixpoint map_chars (f : ascii -> ascii) (s : string) : string :=
  match s with
  | EmptyString => EmptyString
  | String c s' => String (f c) (map_chars f s')
  end.

Definition lower : string -> string := map_chars lower_char.
Definition upper : string -> string := map_chars upper_char.

Fixpoint mem_char (c : ascii) (chars : string) : bool :=
  match chars with
  | EmptyString => false
  | String d chars' => Ascii.eqb c d || mem_char c chars'
  end.

Fixpoint lstrip_by (p : ascii -> bool) (s : string) : string :=
  match s with
  | EmptyString => EmptyString
  | String c s' => if p c then lstrip_by p s' else s
  end.

Fixpoint rstrip_by (p : ascii -> bool) (s : string) : string :=
  match s with
  | EmptyString => EmptyString
  | String c s' =>
      match rstrip_by p s' with
      | EmptyString => if p c then EmptyString else String c EmptyString
      | t => String c t
      end
  end.

(** [s.strip()] *)
Definition strip (s : string) : string :=
  rstrip_by is_space (lstrip_by is_space s).

(** [s.strip(chars)] *)
Definition strip_chars (chars : string) (s : string) : string :=
  rstrip_by (fun c => mem_char c chars) (lstrip_by (fun c => mem_char c chars) s).

(** [s.startswith(p)], returning what follows. *)
Fixpoint drop_prefix (p s : string) : option string :=
  match p, s with
  | EmptyString, _ => Some s
  | String a p', String b s' => if Ascii.eqb a b then drop_prefix p' s' else None
  | String _ _, EmptyString => None
  end.

(** [sub in s] *)
Fixpoint contains (sub s : string) : bool :=
  match drop_prefix sub s with
  | Some _ => true
  | None =>
      match s with
      | EmptyString => false
      | String _ s' => contains sub s'
      end
  end.

(** [s.split(sep)] for a one-character separator. *)
Fixpoint split_char (sep : ascii) (s : string) : list string :=
  match s with
  | EmptyString => [EmptyString]
  | String c s' =>
      if Ascii.eqb c sep then EmptyString :: split_char sep s'
      else match split_char sep s' with
           | [] => [String c EmptyString]
           | piece :: rest => String c piece :: rest
           end
  end.

(** Line boundaries of [str.splitlines]. *)
Definition is_linebreak (c : ascii) : bool :=
  let n := code c in
  ((10 <=? n) && (n <=? 13) || (28 <=? n) && (n <=? 30) || (n =? 133))%N.

(** [s.splitlines()]: a carriage return directly followed by a line feed is
    one boundary, and a final boundary opens no empty last line. *)
Fixpoint splitlines (s : string) : list string :=
  match s with
  | EmptyString => []
  | String c s' =>
      if is_linebreak c then
        match c, s' with
        | "013"%char, String "010"%char s'' => EmptyString :: splitlines s''
        | _, _ => EmptyString :: splitlines s'
        end
      else match splitlines s' with
           | [] => [String c EmptyString]
           | line :: rest => String c line :: rest
           end
  end.

(** *** Dictionaries *)

(** A value used where a [str] is required. *)
Definition as_str (v : value) : outcome string :=
  match v with
  | VStr s => Ok s
  | _ => Raise TypeError
  end.

(** [d.update(other)]: the fields of [other] win. *)
Definition update (d other : record) : record := other ∪ d.

(** [{x["id"]: x for x in xs}]: a later entry replaces an earlier one with
    the same id. *)
Fixpoint index_by_id (acc : gmap (option string) value) (xs : list record)
    : outcome (gmap (option string) value) :=
  match xs with
  | [] => Ok acc
  | x :: xs' =>
      bind (item x "id") (fun i =>
      bind (hash_key i) (fun k =>
      index_by_id (<[k := VDict x]> acc) xs'))
  end.

(** [v in m] and [m[v]] for a dict [m] keyed by ids. *)
Definition find (m : gmap (option string) value) (v : value) : outcome (option value) :=
  bind (hash_key v) (fun k => Ok (m !! k)).

Definition nl : string := String "010"%char EmptyString.

(** ["\n".join(lines)] *)
Fixpoint join_lines (lines : list string) : string :=
  match lines with
  | [] => EmptyString
  | [line] => line
  | line :: rest => line +:+ nl +:+ join_lines rest
  end.

End Py.

(** ** The fragment of Python's [re] that the scripts use

    Literals, character classes, bounded and unbounded repetition of a
    class (greedy or lazy), and one capturing group; matching is by
    backtracking, as in [re]. *)

Module Re.
Import Py.

Inductive cls :=
| Dot
| Space
| Digit
| Chars (negated : bool) (ranges : list (ascii * ascii)).

Inductive regex :=
| Lit (s : string)
| One (c : cls)
| Rep (c : cls) (lo : nat) (hi : option nat) (greedy : bool)
| Seq (r1 r2 : regex)
| Group (r : regex).

Record flags := { IGNORECASE : bool; DOTALL : bool }.

Definition no_flags := {| IGNORECASE := false; DOTALL := false |}.
Definition I := {| IGNORECASE := true; DOTALL := false |}.
Definition S_ := {| IGNORECASE := false; DOTALL := true |}.
Definition I_S := {| IGNORECASE := true; DOTALL := true |}.

Definition in_ranges (ranges : list (ascii * ascii)) (a : ascii) : bool :=
  existsb (fun '(lo, hi) => in_range lo hi a) ranges.

(** The scripts negate a set only in patterns compiled without IGNORECASE. *)
Definition cls_match (fl : flags) (c : cls) (a : ascii) : bool :=
  match c with
  | Dot => DOTALL fl || negb (Ascii.eqb a "010")
  | Space => is_space a
  | Digit => is_digit a
  | Chars negated ranges =>
      xorb negated
        (in_ranges ranges a
         || IGNORECASE fl
            && (in_ranges ranges (lower_char a) || in_ranges ranges (upper_char a)))
  end.

Definition char_match (fl : flags) (a b : ascii) : bool :=
  if IGNORECASE fl then Ascii.eqb (lower_char a) (lower_char b) else Ascii.eqb a b.

(** A literal at the head of [s]; what follows it. *)
Fixpoint lit (fl : flags) (l s : string) : option string :=
  match l, s with
  | EmptyString, _ => Some s
  | String a l', String b s' => if char_match fl a b then lit fl l' s' else None
  | String _ _, EmptyString => None
  end.

(** Exactly [n] characters satisfying [p]. *)
Fixpoint exactly (p : ascii -> bool) (n : nat) (s : string) : option string :=
  match n, s with
  | O, _ => Some s
  | S n', String c s' => if p c then exactly p n' s' else None
  | S _, EmptyString => None
  end.

Definition more (hi : option nat) : bool :=
  match hi with Some O => false | _ => true end.

Definition less (hi : option nat) : option nat :=
  match hi with Some n => Some (Nat.pred n) | None => None end.

Definition take_chars (n : nat) (s : string) : string := String.substring 0 n s.

Section Matcher.
Context {A : Type}.
Variable fl : flags.

(** As many as possible first, giving back one at a time. *)
Fixpoint greedy (p : ascii -> bool) (hi : option nat) (s : string)
    (k : string -> option A) : option A :=
  match s with
  | String c s' =>
      if p c && more hi then
        match greedy p (less hi) s' k with
        | Some a => Some a
        | None => k s
        end
      else k s
  | EmptyString => k s
  end.

(** As few as possible first, taking one more at a time. *)
Fixpoint lazy (p : ascii -> bool) (hi : option nat) (s : string)
    (k : string -> option A) : option A :=
  match k s with
  | Some a => Some a
  | None =>
      match s with
      | String c s' => if p c && more hi then lazy p (less hi) s' k else None
      | EmptyString => None
      end
  end.

(** [run r s g k]: match [r] at the head of [s]; [k] receives what is left
    and the text of group 1 ([g] so far). *)
Fixpoint run (r : regex) (s : string) (g : option string)
    (k : string -> option string -> option A) : option A :=
  match r with
  | Lit l =>
      match lit fl l s with
      | Some s' => k s' g
      | None => None
      end
  | One c =>
      match s with
      | String a s' => if cls_match fl c a then k s' g else None
      | EmptyString => None
      end
  | Rep c lo hi gr =>
      match exactly (cls_match fl c) lo s with
      | Some s1 =>
          (if gr then greedy else lazy) (cls_match fl c)
            (option_map (fun h => h - lo) hi) s1 (fun s2 => k s2 g)
      | None => None
      end
  | Seq r1 r2 => run r1 s g (fun s1 g1 => run r2 s1 g1 k)
  | Group r1 =>
      run r1 s g
        (fun s1 _ => k s1 (Some (take_chars (String.length s - String.length s1) s)))
  end.
End Matcher.

(** [pattern.match(s)]: what follows the match, and group 1. *)
Definition match_at (fl : flags) (r : regex) (s : string)
    : option (string * option string) :=
  run fl r s None (fun rest g => Some (rest, g)).

(** [re.search(r, s, fl)]: the leftmost position with a match. *)
Fixpoint search (fl : flags) (r : regex) (s : string)
    : option (string * option string) :=
  match match_at fl r s with
  | Some m => Some m
  | None =>
      match s with
      | String _ s' => search fl r s'
      | EmptyString => None
      end
  end.

(** [re.search(r, s, fl)] followed, on a match, by [.group(1)]. Every
    pattern of the scripts has one group, part of every match. *)
Definition search_group (fl : flags) (r : regex) (s : string) : option string :=
  match search fl r s with
  | Some (_, g) => Some (default EmptyString g)
  | None => None
  end.

(** [re.sub(r, '', s)]; [skip] counts the characters of a match still to
    be dropped. *)
Fixpoint sub_go (fl : flags) (r : regex) (skip : nat) (s : string) : string :=
  match s with
  | EmptyString => EmptyString
  | String c s' =>
      match skip with
      | S n => sub_go fl r n s'
      | O =>
          match match_at fl r s with
          | Some (rest, _) =>
              match String.length s - String.length rest with
              | S n => sub_go fl r n s'
              | O => String c (sub_go fl r 0 s')
              end
          | None => String c (sub_go fl r 0 s')
          end
      end
  end.

Definition sub_empty (fl : flags) (r : regex) (s : string) : string :=
  sub_go fl r 0 s.

(** [re.split(r, s)] for a pattern whose matches are not empty. *)
Fixpoint split_go (fl : flags) (r : regex) (skip : nat) (s : string) : list string :=
  let keep c pieces :=
    match pieces with
    | [] => [String c EmptyString]
    | piece :: rest => String c piece :: rest
    end in
  match s with
  | EmptyString => [EmptyString]
  | String c s' =>
      match skip with
      | S n => split_go fl r n s'
      | O =>
          match match_at fl r s with
          | Some (rest, _) =>
              match String.length s - String.length rest with
              | S n => EmptyString :: split_go fl r n s'
              | O => keep c (split_go fl r 0 s')
              end
          | None => keep c (split_go fl r 0 s')
          end
      end
  end.

Definition split (fl : flags) (r : regex) (s : string) : list string :=
  split_go fl r 0 s.

(** [label\s*(.+)]: the shape of every one-line field pattern. *)
Definition labelled (label : string) : regex :=
  Seq (Lit label) (Seq (Rep Space 0 None true) (Group (Rep Dot 1 None true))).

(** [start(.+?)stop]: the shape of every block pattern. *)
Definition between (start stop : string) : regex :=
  Seq (Lit start) (Seq (Group (Rep Dot 1 None false)) (Lit stop)).

End Re.


(** ** recruitments.py *)

Module Recruitments.
Import Py Re.

Definition EMOJI_PATTERN : regex :=
  Rep (Chars true [("000"%char, "127"%char)]) 1 None true.

Definition remove_emojis (text : string) : string :=
  sub_empty no_flags EMOJI_PATTERN text.

(** [label\s*([^\n\r]+)] *)
Definition labelled_line (label : string) : regex :=
  Seq (Lit label)
    (Seq (Rep Space 0 None true)
       (Group (Rep (Chars true [("010"%char, "010"%char); ("013"%char, "013"%char)])
                 1 None true))).

(** [re.search(label\s*(.+), text)] and, on a match, [.group(1).strip()]. *)
Definition one_line (label text : string) : option string :=
  strip <$> search_group no_flags (labelled label) text.

(** [re.search(start(.+?)stop, text, re.S)] and, on a match, [.group(1)]. *)
Definition block (start stop text : string) : option string :=
  search_group S_ (between start stop) text.

(** [[line.strip("- ").strip() for line in b.strip().splitlines()
      if line.strip()]] *)
Definition items (b : string) : list value :=
  (fun line => VStr (strip (strip_chars "- " line))) <$>
    List.filter (fun line => negb (String.eqb (strip line) ""))
      (splitlines (strip b)).

(** [if found: job[key] = found] *)
Definition set_if (key : string) (found : option value) (job : record) : record :=
  match found with
  | Some v => <[key := v]> job
  | None => job
  end.

Definition location_of (loc_block : string) : value :=
  let sub label :=
    default EmptyString (strip <$> search_group no_flags (labelled label) loc_block) in
  VDict (<["type" := VStr (sub "Type:")]>
        (<["address" := VStr (sub "Address:")]>
        (<["city" := VStr (sub "City:")]> ∅))).

Definition apply_of (clean_text : string) : record :=
  let email := strip <$> search_group no_flags (labelled_line "Email:") clean_text in
  let contact := strip <$> search_group no_flags (labelled_line "Contact:") clean_text in
  set_if "contact_person" (VStr <$> contact) (set_if "email" (VStr <$> email) ∅).

Definition parse_text (clean_text : string) (job : record) : record :=
  let job := set_if "company"
    ((fun name => VDict {["name" := VStr name]}) <$> one_line "Company:" clean_text) job in
  let job := set_if "title" (VStr <$> one_line "Position:" clean_text) job in
  let job := set_if "description" (VStr <$> one_line "Description:" clean_text) job in
  let job := set_if "level" (VStr <$> one_line "Level:" clean_text) job in
  let job := set_if "location" (location_of <$> block "Location:" "Salary:" clean_text) job in
  let job := set_if "salary" (VStr <$> one_line "Salary:" clean_text) job in
  let job := set_if "work_time" (VStr <$> one_line "Work Time:" clean_text) job in
  let job := set_if "requirements"
    (VList ∘ items <$> block "Requirements:" "Benefits:" clean_text) job in
  let job := set_if "benefits"
    (VList ∘ items <$> block "Benefits:" "Deadline:" clean_text) job in
  let job := set_if "apply_deadline" (VStr <$> one_line "Deadline:" clean_text) job in
  let apply := apply_of clean_text in
  let job := if truthy (VDict apply) then <["apply" := VDict apply]> job else job in
  let job := set_if "tags" (VList ∘ items <$> block "Tags:" "Apply:" clean_text) job in
  job.

(** [post.get("message", "")] *)
Definition message_of (post : record) : value :=
  default (VStr "") (post !! "message").

Definition parse_job_post (post : record) : outcome record :=
  bind (as_str (message_of post)) (fun message =>
  let clean_text := remove_emojis message in
  let job : record :=
    <["id" := get post "id"]>
    (<["created_time" := get post "created_time"]>
    (<["full_picture" := get post "full_picture"]> ∅)) in
  Ok (parse_text clean_text job)).

(** The two lines the merge loop prints. *)
Inductive message :=
| AddedJob (title : value)
| SkippedDuplicateJobId (id : value).

(** [any(j.get("id") == job_json["id"] for j in data)]: [job_json["id"]] is
    evaluated once per record of [data]. *)
Definition id_exists (data : list record) (job_json : record) : outcome bool :=
  match data with
  | [] => Ok false
  | _ :: _ =>
      bind (item job_json "id") (fun i =>
      Ok (existsb (fun j => bool_decide (get j "id" = i)) data))
  end.

(** Lines 135-139: [data] after the step, and what was printed or raised. *)
Definition merge_job (data : list record) (job_json : record)
    : list record * outcome message :=
  match id_exists data job_json with
  | Raise e => (data, Raise e)
  | Ok false =>
      (job_json :: data, bind (item job_json "title") (fun t => Ok (AddedJob t)))
  | Ok true =>
      (data, bind (item job_json "id") (fun i => Ok (SkippedDuplicateJobId i)))
  end.

(** One turn of the loop over [posts] (lines 129-139). *)
Definition process_post (data : list record) (post : record)
    : list record * outcome (option message) :=
  match as_str (message_of post) with
  | Raise _ => (data, Raise AttributeError)
  | Ok message =>
      if contains "#recruitment" (lower message) then
        match parse_job_post post with
        | Raise e => (data, Raise e)
        | Ok job_json =>
            let '(data', printed) := merge_job data job_json in
            (data', bind printed (fun m => Ok (Some m)))
        end
      else (data, Ok None)
  end.

(** The loop over [posts] (lines 129-139): [data] when the loop ends or is
    left by an exception, and the lines printed. *)
Fixpoint loop (data : list record) (posts : list record)
    : list record * list message * outcome unit :=
  match posts with
  | [] => (data, [], Ok ())
  | post :: rest =>
      match process_post data post with
      | (data', Ok printed) =>
          let '(data'', lines, result) := loop data' rest in
          (data'', option_list printed ++ lines, result)
      | (data', Raise e) => (data', [], Raise e)
      end
  end.

(** The script from the loading of [categories/recruitments.json] ([file],
    [None] when it does not exist) to its saving: the lines printed by the
    loop, and the array written, which an exception prevents. The line
    printed after the saving is not recorded. *)
Definition main (file : option (list record)) (posts : list record)
    : list message * outcome (list record) :=
  let '(data, lines, result) := loop (default [] file) posts in
  (lines, bind result (fun _ => Ok data)).

End Recruitments.

(** ** events.py *)

Module Events.
Import Py Re.

(** The [patterns] dict of [post_to_json], in its order. *)
Definition patterns : list (string * regex) :=
  [ ("title", labelled "Title:");
    ("date", labelled "Date:");
    ("location", labelled "Location:");
    ("categories", labelled "Categories:");
    ("members", labelled "Members:");
    ("logo", labelled "Logo:");
    ("background", labelled "Background:");
    ("url", labelled "URL:");
    ("description", labelled "Description:") ].

(** [[|,]] *)
Definition separators : regex :=
  One (Chars false [("|"%char, "|"%char); (","%char, ","%char)]).

Definition default_background : string :=
  "linear-gradient(45deg, #FDEB71, #F8D800)".

(** The body of the loop over [patterns]: the value stored under [key]. *)
Definition parse_field (key : string) (pattern : regex) (post_text : string) : value :=
  match search_group I pattern post_text with
  | Some g =>
      let value := strip g in
      if String.eqb key "categories" then
        VList ((fun c => VStr (strip c)) <$> split no_flags separators value)
      else if String.eqb (lower value) "null" then VNone
      else VStr value
  | None => VNone
  end.

(** [if not data[key]: data[key] = fallback] *)
Definition default_rule (key : string) (fallback : value) (data : record)
    : outcome record :=
  bind (item data key) (fun v =>
  Ok (if truthy v then data else <[key := fallback]> data)).

Definition post_to_json (post_text : string) : outcome record :=
  let data : record :=
    fold_left
      (fun data '(key, pattern) => <[key := parse_field key pattern post_text]> data)
      patterns ∅ in
  bind (default_rule "logo" VNone data) (fun data =>
  bind (default_rule "members" VNone data) (fun data =>
  default_rule "background" (VStr default_background) data)).

(** [{e.get("title") for e in events}] *)
Fixpoint existing_titles (events : list record) : outcome (gset (option string)) :=
  match events with
  | [] => Ok ∅
  | e :: events' =>
      bind (hash_key (get e "title")) (fun k =>
      bind (existing_titles events') (fun titles => Ok ({[k]} ∪ titles)))
  end.

(** [insert_event]: [file] is the JSON array read from [json_file], or
    [None] for a missing or undecodable file. The result is the lines
    printed (none: both [print] calls are commented out) and the array
    written back, or [None] when the function returns without writing. *)
Definition insert_event (file : option (list record)) (event_data : record)
    : list string * outcome (option (list record)) :=
  let events := default [] file in
  ([],
   bind (existing_titles events) (fun titles =>
   bind (item event_data "title") (fun t =>
   bind (hash_key t) (fun k =>
   if bool_decide (k ∈ titles) then Ok None
   else Ok (Some (event_data :: events)))))).

(** The content of [json_file] once [insert_event] is over. *)
Definition file_after (file : option (list record))
    (result : outcome (option (list record))) : option (list record) :=
  match result with
  | Ok (Some events) => Some events
  | Ok None | Raise _ => file
  end.

(** One turn of the main loop. *)
Definition process_post (file : option (list record)) (post : record)
    : outcome (option (list record)) :=
  let message := default (VStr "") (post !! "message") in
  if negb (truthy message) then Ok None
  else
    match as_str message with
    | Raise _ => Raise AttributeError
    | Ok message =>
        if contains "#events" (lower message) then
          bind (post_to_json message) (fun event_json => (insert_event file event_json).2)
        else Ok None
    end.

(** The main loop: the content of [categories/events.json] when the loop
    ends or is left by an exception. *)
Fixpoint main (file : option (list record)) (posts : list record)
    : option (list record) * outcome unit :=
  match posts with
  | [] => (file, Ok ())
  | post :: rest =>
      match process_post file post with
      | Raise e => (file, Raise e)
      | Ok written => main (file_after file (Ok written)) rest
      end
  end.

End Events.

(** ** facebook_posts.py *)

Module FacebookPosts.
Import Py Re.

(** [#([A-Z]\d{3})] *)
Definition id_pattern : regex :=
  Seq (Lit "#")
    (Group (Seq (One (Chars false [("A"%char, "Z"%char)])) (Rep Digit 3 (Some 3) true))).

(** [#CA([A-Za-z0-9_]+)] *)
Definition ca_category_pattern : regex :=
  Seq (Lit "#CA")
    (Group (Rep (Chars false [("A"%char, "Z"%char); ("a"%char, "z"%char);
                               ("0"%char, "9"%char); ("_"%char, "_"%char)])
              1 None true)).

Definition title_pattern : regex := labelled "Title:".
Definition description_pattern : regex := labelled "Description:".

(** Lines 43-58: the title of a post. *)
Definition title_of (message : string) : string :=
  let title := strip <$> search_group I title_pattern message in
  match title with
  | Some t => if String.eqb t "" then strip (hd EmptyString (split_char "010" message)) else t
  | None => strip (hd EmptyString (split_char "010" message))
  end.

Definition description_of (message : string) : value :=
  match search_group I_S description_pattern message with
  | Some g => VStr (strip g)
  | None => VNone
  end.

(** [match.group(1).upper()] of the first author hashtag, if any. *)
Definition author_key (message : string) : option string :=
  upper <$> search_group I id_pattern message.

(** Lines 60-73: [post] with its author and category attached. *)
Definition enrich (authors_dict : gmap (option string) value) (message : string)
    (post : record) : record :=
  let post :=
    match author_key message with
    | Some author_id =>
        match authors_dict !! Some author_id with
        | Some author_info => <["author" := author_info]> post
        | None => post
        end
    | None => post
    end in
  match search_group I ca_category_pattern message with
  | Some category => <["category" := VStr category]> post
  | None => post
  end.

(** One turn of the loop over the posts, up to [clean_post]; [None] when
    the post has no message. *)
Definition clean_post (authors_dict : gmap (option string) value) (post : record)
    : outcome (option record) :=
  let message := default (VStr "") (post !! "message") in
  if negb (truthy message) then Ok None
  else
    bind (as_str message) (fun message =>
    let post := enrich authors_dict message post in
    bind (item post "id") (fun id =>
    bind (item post "created_time") (fun created_time =>
    bind (item post "permalink_url") (fun permalink_url =>
    let clean : record :=
      <["id" := id]>
      (<["title" := VStr (title_of message)]>
      (<["description" := description_of message]>
      (<["created_time" := created_time]>
      (<["permalink_url" := permalink_url]>
      (<["full_picture" := get post "full_picture"]> ∅))))) in
    let clean :=
      match post !! "author" with
      | Some a => <["author" := a]> clean
      | None => clean
      end in
    let clean :=
      match post !! "category" with
      | Some c => <["category" := c]> clean
      | None => clean
      end in
    Ok (Some clean))))).

(** One turn of the loop: the record appended to [facebook_posts], if any
    (lines 36-93). *)
Definition process_post (authors_dict : gmap (option string) value) (post : record)
    : outcome (option record) :=
  bind (clean_post authors_dict post) (fun clean =>
  match clean with
  | None => Ok None
  | Some clean =>
      bind (as_str (default (VStr "") (post !! "message"))) (fun message =>
      Ok (if contains "#posts" (lower message) then Some clean else None))
  end).

(** The loop over the posts: [facebook_posts] when it ends. *)
Fixpoint collect (authors_dict : gmap (option string) value) (posts : list record)
    : outcome (list record) :=
  match posts with
  | [] => Ok []
  | post :: rest =>
      bind (process_post authors_dict post) (fun kept =>
      bind (collect authors_dict rest) (fun others =>
      Ok (option_list kept ++ others)))
  end.

(** The script from [authors_dict] on: the array written to
    [categories/facebook_posts.json], [None] when nothing is written. *)
Definition main (authors_data : list record) (posts : list record)
    : outcome (option (list record)) :=
  bind (index_by_id ∅ authors_data) (fun authors_dict =>
  bind (collect authors_dict posts) (fun facebook_posts =>
  Ok (if truthy (VList (VDict <$> facebook_posts)) then Some facebook_posts else None))).

End FacebookPosts.

(** ** news.py *)

Module News.
Import Py Re.

(** [#([A-Z]\d{3})] *)
Definition id_pattern : regex :=
  Seq (Lit "#")
    (Group (Seq (One (Chars false [("A"%char, "Z"%char)])) (Rep Digit 3 (Some 3) true))).

(** [match.group(1).upper()] of the first author hashtag, if any. *)
Definition author_key (message : string) : option string :=
  upper <$> search_group I id_pattern message.

(** [#CA([A-Za-z0-9_]+)] *)
Definition ca_category_pattern : regex :=
  Seq (Lit "#CA")
    (Group (Rep (Chars false [("A"%char, "Z"%char); ("a"%char, "z"%char);
                               ("0"%char, "9"%char); ("_"%char, "_"%char)])
              1 None true)).

(** The line printed for a post that has a category. *)
Inductive message :=
| Category (category : value).

(** Lines 35-50: [post] with its author and category attached. *)
Definition enrich (authors_dict : gmap (option string) value) (message : string)
    (post : record) : record :=
  let post :=
    match author_key message with
    | Some author_id =>
        match authors_dict !! Some author_id with
        | Some author_info => <["author" := author_info]> post
        | None => post
        end
    | None => post
    end in
  match search_group I ca_category_pattern message with
  | Some category => <["category" := VStr category]> post
  | None => post
  end.

(** One turn of the loop (lines 34-63): the line printed, and the post
    appended to [news_posts], if any. *)
Definition process_post (authors_dict : gmap (option string) value) (post : record)
    : outcome (list message * option record) :=
  bind (as_str (default (VStr "") (post !! "message"))) (fun message =>
  let post := enrich authors_dict message post in
  let printed :=
    match post !! "category" with
    | Some c => [Category c]
    | None => []
    end in
  Ok (printed, if contains "#news" (lower message) then Some post else None)).

(** The loop over the posts: the lines printed and [news_posts]. *)
Fixpoint collect (authors_dict : gmap (option string) value) (posts : list record)
    : list message * outcome (list record) :=
  match posts with
  | [] => ([], Ok [])
  | post :: rest =>
      match process_post authors_dict post with
      | Raise e => ([], Raise e)
      | Ok (printed, kept) =>
          let '(lines, others) := collect authors_dict rest in
          (printed ++ lines, bind others (fun ps => Ok (option_list kept ++ ps)))
      end
  end.

End News.

(** ** companies.py *)

Module Companies.
Import Py.

(** [f"{n:02d}"] *)
Definition fmt_02d (n : nat) : string :=
  let digits := NilEmpty.string_of_uint (Nat.to_uint n) in
  if String.length digits <? 2 then "0" +:+ digits else digits.

(** The loop over [companies], from the counters it has reached. *)
Fixpoint assign_ids (vn_count ob_count : nat) (companies : list record)
    : list record :=
  match companies with
  | [] => []
  | company :: rest =>
      if bool_decide (get company "country" = VStr "Vietnam") then
        let cid := "COMVN" +:+ fmt_02d vn_count in
        update {["id" := VStr cid]} company :: assign_ids (S vn_count) ob_count rest
      else
        let cid := "COMOB" +:+ fmt_02d ob_count in
        update {["id" := VStr cid]} company :: assign_ids vn_count (S ob_count) rest
  end.

Definition updated_companies (companies : list record) : list record :=
  assign_ids 1 1 companies.

End Companies.

(** ** roles_and_badges.py *)

Module RolesAndBadges.
Import Py.

(** The warnings the script prints. *)
Inductive message :=
| RoleNotFound (role_id : value)
| BadgeNotFound (b_id : value).

(** [badge_map]: every badge of every category, by id; [badges] lists the
    categories of [roles_and_badges["badges"]] in file order. *)
Definition badge_map (badges : list (string * list record))
    : outcome (gmap (option string) value) :=
  fold_left
    (fun acc '(category, items) => bind acc (fun m => index_by_id m items))
    badges (Ok ∅).

Definition role_map (roles : list record) : outcome (gmap (option string) value) :=
  index_by_id ∅ roles.

(** Lines 27-32. *)
Definition replace_role (role_map : gmap (option string) value) (author : record)
    : record * list message * outcome unit :=
  match author !! "roles" with
  | Some role_id =>
      if truthy role_id then
        match find role_map role_id with
        | Raise e => (author, [], Raise e)
        | Ok (Some role) => (<["roles" := role]> author, [], Ok ())
        | Ok None => (author, [RoleNotFound role_id], Ok ())
        end
      else (author, [], Ok ())
  | None => (author, [], Ok ())
  end.

(** The loop of lines 37-41: the warnings printed, and [new_badges]. *)
Fixpoint resolve_badges (badge_map : gmap (option string) value) (b_ids : list value)
    : list message * outcome (list value) :=
  match b_ids with
  | [] => ([], Ok [])
  | b_id :: rest =>
      match find badge_map b_id with
      | Raise e => ([], Raise e)
      | Ok found =>
          let '(printed, new_badges) := resolve_badges badge_map rest in
          match found with
          | Some badge => (printed, bind new_badges (fun bs => Ok (badge :: bs)))
          | None => (BadgeNotFound b_id :: printed, new_badges)
          end
      end
  end.

(** What [for b_id in v] ranges over: the elements of a list, the
    characters of a string, the keys of a dict (here in the order of the
    map; Python follows the order of the file). *)
Definition iterate (v : value) : outcome (list value) :=
  match v with
  | VNone => Raise TypeError
  | VStr s => Ok ((fun c => VStr (String c EmptyString)) <$> list_ascii_of_string s)
  | VList l => Ok l
  | VDict d => Ok (VStr <$> (map_to_list d).*1)
  end.

(** Lines 35-42. *)
Definition replace_badges (badge_map : gmap (option string) value) (author : record)
    : record * list message * outcome unit :=
  match author !! "badges" with
  | Some badges =>
      if truthy badges then
        match iterate badges with
        | Raise e => (author, [], Raise e)
        | Ok b_ids =>
            match resolve_badges badge_map b_ids with
            | (printed, Ok new_badges) =>
                (<["badges" := VList new_badges]> author, printed, Ok ())
            | (printed, Raise e) => (author, printed, Raise e)
            end
        end
      else (author, [], Ok ())
  | None => (author, [], Ok ())
  end.

(** One turn of the loop over [authors] (lines 25-42). *)
Definition enrich_author (role_map badge_map : gmap (option string) value)
    (author : record) : record * list message * outcome unit :=
  match replace_role role_map author with
  | (author, printed, Ok _) =>
      let '(author, printed', result) := replace_badges badge_map author in
      (author, printed ++ printed', result)
  | stopped => stopped
  end.

End RolesAndBadges.

(** ** blogs.py *)

Module Blogs.
Import Py.

(** The body of the loop over [blogs] (lines 15-19). *)
Definition enrich_blog (author_map : gmap (option string) value) (blog : record)
    : outcome record :=
  let author_id := get blog "author_id" in
  bind (find author_map author_id) (fun found =>
  match found with
  | Some author =>
      let blog := <["author" := author]> blog in
      match blog !! "author_id" with
      | Some _ => Ok (delete "author_id" blog)
      | None => Raise (KeyError "author_id")
      end
  | None => Ok blog
  end).

(** The loop over [blogs]; an exception leaves it at once. *)
Fixpoint enrich_all (author_map : gmap (option string) value) (blogs : list record)
    : outcome (list record) :=
  match blogs with
  | [] => Ok []
  | blog :: rest =>
      bind (enrich_blog author_map blog) (fun blog' =>
      bind (enrich_all author_map rest) (fun rest' => Ok (blog' :: rest')))
  end.

(** The script: the array written back to [categories/blogs.json]. *)
Definition main (blogs authors : list record) : outcome (list record) :=
  bind (index_by_id ∅ authors) (fun author_map => enrich_all author_map blogs).

End Blogs.

(** ** The spec's own wording of two rules, for comparison with the code *)

Module Spec.
Import Py.



(** Section 4.1: "the first non-empty line of the raw text". *)
Definition first_non_empty_line (text : string) : string :=
  hd EmptyString
    (List.filter (fun line => negb (String.eqb line "")) (split_char "010" text)).

End Spec.

(** ** Notions used to state the properties *)

Import Py.

(** What follows the first place of [text] where [label] stands. *)
Fixpoint after_label (fl : Re.flags) (label text : string) : option string :=
  match Re.lit fl label text with
  | Some rest => Some rest
  | None =>
      match text with
      | String _ text' => after_label fl label text'
      | EmptyString => None
      end
  end.

(** The text up to its first line feed. *)
Definition first_line (text : string) : string :=
  hd EmptyString (split_char "010" text).

Definition is_letter (c : ascii) : bool :=
  in_range "A" "Z" c || in_range "a" "z" c.

(** The worked example of the spec. *)
Definition backend_engineer_text : string :=
  join_lines
    [ "Title: Backend Engineer";
      "Position: Backend Engineer";
      "Location:Type: Remote Address: N/A City: HCMC Salary:1200";
      "Salary: 1200 USD";
      "Requirements:";
      "- Go";
      "- SQL";
      "Benefits:";
      "- Insurance";
      "Deadline: 2025-12-01" ].

(** The location the spec gives for the worked example, and the one the
    parser yields. *)
Definition location_as_claimed : value :=
  VDict {["type" := VStr "Remote"; "address" := VStr "N/A"; "city" := VStr "HCMC"]}.

Definition location_as_parsed : value :=
  VDict {["type" := VStr "Remote Address: N/A City: HCMC";
          "address" := VStr "N/A City: HCMC";
          "city" := VStr "HCMC"]}.

(** What [Events.post_to_json] leaves under [key] when its loop stored
    [v] there: the default rules of lines 47-52 replace an empty logo or
    members by null and an empty background by the gradient. *)
Definition after_default_rules (key : string) (v : value) : value :=
  if truthy v then v
  else if String.eqb key "background" then VStr Events.default_background
  else if String.eqb key "logo" || String.eqb key "members" then VNone
  else v.

(** The one-line fields of [Recruitments.parse_job_post] that are stored
    as plain strings: key and label. *)
Definition one_line_fields : list (string * string) :=
  [ ("title", "Position:"); ("description", "Description:"); ("level", "Level:");
    ("salary", "Salary:"); ("work_time", "Work Time:");
    ("apply_deadline", "Deadline:") ].

(** [companies.py]: the partition of a company, and the id the loop
    computes for it after the companies [before] it. *)
Definition in_vietnam (company : record) : bool :=
  bool_decide (get company "country" = VStr "Vietnam").

Definition computed_id (before : list record) (company : record) : string :=
  if in_vietnam company
  then "COMVN" +:+ Companies.fmt_02d (S (length (List.filter in_vietnam before)))
  else "COMOB" +:+
       Companies.fmt_02d
         (S (length (List.filter (fun c => negb (in_vietnam c)) before))).

(** An entry [k], [v] of an id index that comes from the catalog list
    [xs]: [v] is one of its entities and [k] is the key of its id. *)
Definition from_catalog (xs : list record) (k : option string) (v : value) : Prop :=
  ∃ b, b ∈ xs ∧ v = VDict b ∧ hash_key (get b "id") = Ok k ∧ is_Some (b !! "id").

(** Values a Python [set] accepts. *)
Definition hashable (v : value) : bool :=
  match v with
  | VNone | VStr _ => true
  | VList _ | VDict _ => false
  end.

(** The identity keys of a Collection: [j.get("id")] for recruitment posts,
    [e.get("title")] for events. *)
Definition job_ids (data : list record) : list value :=
  (λ j, get j "id") <$> data.

Definition event_titles (events : list record) : list value :=
  (λ e, get e "title") <$> events.

(** What [#([A-Z]\d{3})] matches at the head of [s] when case is ignored:
    what follows the match, and group 1. *)
Definition hash_id (s : string) : option (string * option string) :=
  match s with
  | String h (String a (String b (String c (String d rest)))) =>
      if Ascii.eqb h "#" && is_letter a && is_digit b && is_digit c && is_digit d
      then Some (rest, Some (String a (String b (String c (String d ""))))) else None
  | _ => None
  end.

(** The class [.] without DOTALL. *)
Definition not_line_feed (c : ascii) : bool := negb (Ascii.eqb c "010").

(** Whether some character of [s] satisfies [p]. *)
Fixpoint some_char (p : ascii → bool) (s : string) : bool :=
  match s with
  | EmptyString => false
  | String c s' => p c || some_char p s'
  end.

(** [s] without its first [n] characters. *)
Fixpoint drop_chars (n : nat) (s : string) : string :=
  match n, s with
  | S n', String _ s' => drop_chars n' s'
  | _, _ => s
  end.

(** Whether [label] stands in [text] with, somewhere after its first
    occurrence, a character other than a line feed. *)
Definition has_value (fl : Re.flags) (label text : string) : bool :=
  match after_label fl label text with
  | Some tail => some_char not_line_feed tail
  | None => false
  end.

(** ** Notions used to state the further properties *)

(** Code points 0 to 127. *)
Definition is_ascii (c : ascii) : bool := in_range "000" "127" c.

(** The characters of [s] that satisfy [p], in order. *)
Fixpoint filter_chars (p : ascii → bool) (s : string) : string :=
  match s with
  | EmptyString => EmptyString
  | String c s' => if p c then String c (filter_chars p s') else filter_chars p s'
  end.

(** The class [[^\x00-\x7F]]. *)
Definition non_ascii (c : ascii) : bool :=
  Re.cls_match Re.no_flags (Re.Chars true [("000"%char, "127"%char)]) c.

(** What stands before and after the first place of [s] where [label]
    stands, compared exactly. *)
Fixpoint cut_at (label s : string) : option (string * string) :=
  match Re.lit Re.S_ label s with
  | Some rest => Some (EmptyString, rest)
  | None =>
      match s with
      | String c s' =>
          match cut_at label s' with
          | Some (before, rest) => Some (String c before, rest)
          | None => None
          end
      | EmptyString => None
      end
  end.

(** The block fields of [Recruitments.parse_job_post]: key, opening label
    and closing label. *)
Definition block_fields : list (string * (string * string)) :=
  [ ("location", ("Location:", "Salary:"));
    ("requirements", ("Requirements:", "Benefits:"));
    ("benefits", ("Benefits:", "Deadline:"));
    ("tags", ("Tags:", "Apply:")) ].

(** What [Recruitments.parse_job_post] stores for the block [body] of the
    field [key]. *)
Definition block_value (key body : string) : value :=
  if String.eqb key "location" then Recruitments.location_of body
  else VList (Recruitments.items body).

(** The class [[A-Za-z0-9_]]. *)
Definition is_word (c : ascii) : bool :=
  is_letter c || is_digit c || Ascii.eqb c "_".

(** The longest prefix of [s] whose characters satisfy [p]. *)
Fixpoint take_while (p : ascii → bool) (s : string) : string :=
  match s with
  | EmptyString => EmptyString
  | String c s' => if p c then String c (take_while p s') else EmptyString
  end.

(** A value without white space around it: a string that [strip] leaves
    as it is, or a list of such strings. *)
Definition trimmed (v : value) : Prop :=
  match v with
  | VStr s => strip s = s
  | VList cs => Forall (λ c, ∃ s, c = VStr s ∧ strip s = s) cs
  | VNone | VDict _ => True
  end.

(** * Properties *)

(** ** Strings *)

Section Strings.
Implicit Types (s t u : string) (c : ascii).

Lemma app_cons c s t : String c s +:+ t = String c (s +:+ t).
Proof. reflexivity. Qed.

Lemma app_empty_l s : "" +:+ s = s.
Proof. reflexivity. Qed.

Lemma app_empty_r s : s +:+ "" = s.
Proof. induction s as [|c s IH]; [done|]. by rewrite app_cons, IH. Qed.

Lemma app_assoc s t u : (s +:+ t) +:+ u = s +:+ t +:+ u.
Proof. induction s as [|c s IH]; [done|]. by rewrite !app_cons, IH. Qed.

Lemma length_app s t : String.length (s +:+ t) = String.length s + String.length t.
Proof. induction s as [|c s IH]; [done|]. rewrite app_cons. simpl. by rewrite IH. Qed.
End Strings.

(** ** Dictionaries *)

Section Dictionaries.
Implicit Types (job : record) (key k : string) (found : option value).

Lemma lookup_set_if_ne job key k found :
  key ≠ k → Recruitments.set_if key found job !! k = job !! k.
Proof.
  intros Hne. destruct found as [v|]; simpl; [|done].
  by rewrite lookup_insert_ne.
Qed.

Lemma lookup_set_if_eq job key found :
  job !! key = None →
  Recruitments.set_if key found job !! key = found.
Proof.
  intros Hnone. destruct found as [v|]; simpl; [|done].
  by rewrite lookup_insert_eq.
Qed.

Lemma lookup_set_if_is_Some job key k found :
  is_Some (job !! k) → is_Some (Recruitments.set_if key found job !! k).
Proof.
  intros Hk. destruct found as [v|]; simpl; [|done].
  destruct (decide (key = k)) as [->|Hne].
  - rewrite lookup_insert_eq. eauto.
  - by rewrite lookup_insert_ne.
Qed.
End Dictionaries.

(** ** The worked example of the recruitment parser *)

(** C4, as stated, fails: on the worked example the sub-labels of the
    location block stand on one line, and each captures to the end of that
    line, so the location is not {type: Remote, address: N/A, city: HCMC}. *)
Lemma worked_example_location_differs :
  ∃ job,
    Recruitments.parse_job_post
      {["id" := VStr "1"; "message" := VStr backend_engineer_text]} = Ok job
    ∧ job !! "location" = Some location_as_parsed
    ∧ job !! "location" ≠ Some location_as_claimed.
Proof.
  eexists. split; [reflexivity|].
  split; [by vm_compute|].
  vm_compute. intros Heq. discriminate Heq.
Qed.

(** C4, amended: the worked example parses to title "Backend Engineer",
    requirements [Go, SQL], benefits [Insurance] and apply_deadline
    "2025-12-01", with location {type: "Remote Address: N/A City: HCMC",
    address: "N/A City: HCMC", city: "HCMC"}. *)
Theorem worked_example (post : record) :
  post !! "message" = Some (VStr backend_engineer_text) →
  ∃ job,
    Recruitments.parse_job_post post = Ok job
    ∧ job !! "title" = Some (VStr "Backend Engineer")
    ∧ job !! "location" = Some location_as_parsed
    ∧ job !! "requirements" = Some (VList [VStr "Go"; VStr "SQL"])
    ∧ job !! "benefits" = Some (VList [VStr "Insurance"])
    ∧ job !! "apply_deadline" = Some (VStr "2025-12-01").
Proof.
  intros Hmessage.
  unfold Recruitments.parse_job_post, Recruitments.message_of.
  rewrite Hmessage. simpl.
  eexists. split; [reflexivity|].
  generalize (get post "id") (get post "created_time") (get post "full_picture").
  intros v1 v2 v3.
  repeat split; by vm_compute.
Qed.

Lemma worked_example_witness :
  ∃ job,
    Recruitments.parse_job_post
      {["id" := VStr "1"; "message" := VStr backend_engineer_text]} = Ok job
    ∧ job !! "title" = Some (VStr "Backend Engineer")
    ∧ job !! "location" = Some location_as_parsed
    ∧ job !! "requirements" = Some (VList [VStr "Go"; VStr "SQL"])
    ∧ job !! "benefits" = Some (VList [VStr "Insurance"])
    ∧ job !! "apply_deadline" = Some (VStr "2025-12-01").
Proof.
  apply (worked_example {["id" := VStr "1"; "message" := VStr backend_engineer_text]}).
  vm_compute. reflexivity.
Defined.

(** ** Which fields a parsed Record has *)

Section Fields.
Implicit Types (text clean_text key label k : string) (job data : record).

Lemma default_rule_insert key (fallback v : value) data :
  data !! key = Some v →
  Events.default_rule key fallback data
  = Ok (<[key := if truthy v then v else fallback]> data).
Proof.
  intros Hkey. unfold Events.default_rule, item. rewrite Hkey. simpl.
  destruct (truthy v); [|done]. by rewrite insert_id.
Qed.

(** [post_to_json] never raises, and stores every key of [patterns]. *)
Lemma post_to_json_fields text :
  ∃ data,
    Events.post_to_json text = Ok data
    ∧ ∀ key pattern,
        (key, pattern) ∈ Events.patterns →
        data !! key
        = Some (after_default_rules key (Events.parse_field key pattern text)).
Proof.
  unfold Events.post_to_json, Events.patterns. cbn [fold_left].
  erewrite (default_rule_insert "logo"); [|by simplify_map_eq].
  cbn [bind].
  erewrite (default_rule_insert "members"); [|by simplify_map_eq].
  cbn [bind].
  erewrite (default_rule_insert "background"); [|by simplify_map_eq].
  eexists. split; [reflexivity|].
  intros key pattern Hin.
  repeat (apply elem_of_cons in Hin as [Hin|Hin]);
    try (by apply elem_of_nil in Hin);
    injection Hin as -> ->; unfold after_default_rules; simplify_map_eq;
    try done; cbn; by destruct (truthy _).
Qed.

Lemma parse_field_absent key pattern text :
  Re.search_group Re.I pattern text = None →
  Events.parse_field key pattern text = VNone.
Proof. intros Hnone. unfold Events.parse_field. by rewrite Hnone. Qed.

Ltac through_set_if :=
  repeat first
    [ rewrite lookup_set_if_ne by done
    | rewrite lookup_insert_ne by done
    | match goal with |- context [if ?b then _ else _] => destruct b end ].

Lemma parse_text_one_line clean_text key label job :
  (key, label) ∈ one_line_fields →
  job !! key = None →
  Recruitments.parse_text clean_text job !! key
  = VStr <$> Recruitments.one_line label clean_text.
Proof.
  intros Hin Hfresh. unfold one_line_fields in Hin.
  repeat (apply elem_of_cons in Hin as [Hin|Hin]);
    try (by apply elem_of_nil in Hin);
    injection Hin as -> ->; unfold Recruitments.parse_text;
    through_set_if; rewrite lookup_set_if_eq; try done; through_set_if; done.
Qed.

Lemma parse_text_keeps clean_text k job :
  is_Some (job !! k) → is_Some (Recruitments.parse_text clean_text job !! k).
Proof.
  intros Hk. unfold Recruitments.parse_text.
  repeat first
    [ apply lookup_set_if_is_Some
    | match goal with |- context [if ?b then _ else _] => destruct b end
    | match goal with
      | |- is_Some (<[?a := _]> _ !! k) =>
          destruct (decide (a = k)) as [->|];
          [rewrite lookup_insert_eq; eauto | rewrite lookup_insert_ne by done]
      end ]; done.
Qed.

(** [parse_job_post] on a post whose message is a string (or missing). *)
Lemma parse_job_post_fields (post : record) message :
  Recruitments.message_of post = VStr message →
  ∃ job,
    Recruitments.parse_job_post post = Ok job
    ∧ is_Some (job !! "id")
    ∧ is_Some (job !! "created_time")
    ∧ is_Some (job !! "full_picture")
    ∧ ∀ key label,
        (key, label) ∈ one_line_fields →
        job !! key
        = VStr <$> Recruitments.one_line label (Recruitments.remove_emojis message).
Proof.
  intros Hmessage. unfold Recruitments.parse_job_post. rewrite Hmessage. simpl.
  eexists. split; [reflexivity|].
  split; [|split; [|split]].
  1-3: apply parse_text_keeps; simplify_map_eq; eauto.
  intros key label Hin. apply parse_text_one_line; [done|].
  unfold one_line_fields in Hin.
  repeat (apply elem_of_cons in Hin as [Hin|Hin]);
    try (by apply elem_of_nil in Hin);
    injection Hin as -> ->; by simplify_map_eq.
Qed.
End Fields.

(** ** Sequential ids of companies *)

Section CompanyIds.
Implicit Types (companies before : list record) (company : record).

Lemma fmt_02d_width n : 2 ≤ String.length (Companies.fmt_02d n).
Proof.
  unfold Companies.fmt_02d.
  destruct (String.length _ <? 2) eqn:Hshort.
  - pose proof (DecimalNat.Unsigned.of_to n) as Hback.
    destruct (Nat.to_uint n) eqn:Hdigits; rewrite length_app; cbn; try lia.
    destruct n; [discriminate Hdigits|discriminate Hback].
  - by apply Nat.ltb_ge in Hshort.
Qed.

Lemma assign_ids_lookup companies :
  ∀ vn_count ob_count i company,
    companies !! i = Some company →
    Companies.assign_ids vn_count ob_count companies !! i
    = Some (update
        {["id" := VStr
            (if in_vietnam company
             then "COMVN" +:+ Companies.fmt_02d
                    (vn_count + length (List.filter in_vietnam (take i companies)))
             else "COMOB" +:+ Companies.fmt_02d
                    (ob_count
                     + length (List.filter (λ c, negb (in_vietnam c))
                                 (take i companies))))]}
        company).
Proof.
  induction companies as [|c rest IH]; intros vn ob i company Hi; [done|].
  destruct i as [|i]; simpl in Hi.
  - injection Hi as ->. cbn [Companies.assign_ids take List.filter length].
    rewrite !Nat.add_0_r. fold (in_vietnam company).
    by destruct (in_vietnam company).
  - cbn [Companies.assign_ids take List.filter]. fold (in_vietnam c).
    destruct (in_vietnam c) eqn:Hc; cbn [negb length lookup];
      simpl; rewrite (IH _ _ _ _ Hi); do 4 f_equal;
      destruct (in_vietnam company); f_equal; f_equal; lia.
Qed.

Lemma assign_ids_length companies :
  ∀ vn_count ob_count,
    length (Companies.assign_ids vn_count ob_count companies) = length companies.
Proof.
  induction companies as [|c rest IH]; intros vn ob; [done|].
  simpl. destruct (bool_decide _); simpl; by rewrite IH.
Qed.
End CompanyIds.

(** C8, as stated, fails: a company that already has an "id" keeps it, since
    [new_company.update(company)] writes the company's own fields over the
    computed id. *)
Lemma company_keeps_its_id :
  let company : record := {["id" := VStr "X"; "country" := VStr "Vietnam"]} in
  Companies.updated_companies [company] = [company]
  ∧ company !! "id" ≠ Some (VStr "COMVN01").
Proof. split; [by vm_compute|]. vm_compute. intros Heq. discriminate Heq. Qed.

(** C8, amended: the rebuild keeps the length and order of the list and
    every original field of every record, an "id" the record already has
    included; a record without an "id" gets "COMVN" (country "Vietnam") or
    "COMOB" (any other) followed by the running counter of its partition,
    starting at 1 and written with at least two digits. The counter of a
    partition advances at every record of that partition. *)
Theorem sequential_ids (companies : list record) (i : nat) (company : record) :
  companies !! i = Some company →
  length (Companies.updated_companies companies) = length companies
  ∧ ∃ new_company,
      Companies.updated_companies companies !! i = Some new_company
      ∧ (∀ k v, company !! k = Some v → new_company !! k = Some v)
      ∧ (∀ k, k ≠ "id" → new_company !! k = company !! k)
      ∧ (company !! "id" = None →
         new_company !! "id" = Some (VStr (computed_id (take i companies) company)))
      ∧ 7 ≤ String.length (computed_id (take i companies) company).
Proof.
  intros Hi. split; [apply assign_ids_length|].
  unfold Companies.updated_companies. rewrite (assign_ids_lookup _ _ _ _ _ Hi).
  eexists. split; [reflexivity|]. unfold update.
  split; [|split; [|split]].
  - intros k v Hk. by apply lookup_union_Some_l.
  - intros k Hk. rewrite lookup_union_l; [done|]. by rewrite lookup_singleton_ne.
  - intros Hnone. rewrite lookup_union_r by done.
    rewrite lookup_singleton_eq. unfold computed_id.
    by destruct (in_vietnam company).
  - unfold computed_id.
    destruct (in_vietnam company); rewrite length_app;
      match goal with |- context [Companies.fmt_02d ?n] =>
        pose proof (fmt_02d_width n) end; simpl; lia.
Qed.

Lemma sequential_ids_witness :
  let companies : list record :=
    [ {["name" := VStr "A"; "country" := VStr "Vietnam"]};
      {["name" := VStr "B"; "country" := VStr "Japan"]};
      {["name" := VStr "C"; "country" := VStr "Vietnam"]} ] in
  let company : record := {["name" := VStr "C"; "country" := VStr "Vietnam"]} in
  length (Companies.updated_companies companies) = length companies
  ∧ ∃ new_company,
      Companies.updated_companies companies !! 2 = Some new_company
      ∧ (∀ k v, company !! k = Some v → new_company !! k = Some v)
      ∧ (∀ k, k ≠ "id" → new_company !! k = company !! k)
      ∧ (company !! "id" = None →
         new_company !! "id" = Some (VStr (computed_id (take 2 companies) company)))
      ∧ 7 ≤ String.length (computed_id (take 2 companies) company).
Proof.
  intros companies company.
  apply (sequential_ids companies 2 company). reflexivity.
Defined.

Example third_company_is_COMVN02 :
  computed_id
    [ {["name" := VStr "A"; "country" := VStr "Vietnam"]};
      {["name" := VStr "B"; "country" := VStr "Japan"]} ]
    {["name" := VStr "C"; "country" := VStr "Vietnam"]} = "COMVN02".
Proof. by vm_compute. Qed.

(** ** Badge resolution *)

Section Badges.
Import RolesAndBadges.
Implicit Types (m acc : gmap (option string) value) (ids : list string).

Lemma resolve_badges_ids m ids :
  resolve_badges m (VStr <$> ids)
  = ((λ i, BadgeNotFound (VStr i)) <$> filter (λ i, m !! Some i = None) ids,
     Ok (omap (λ i, m !! Some i) ids)).
Proof.
  induction ids as [|i ids IH]; [done|].
  cbn [fmap list_fmap resolve_badges find hash_key bind omap list_omap].
  fold (fmap (M:=list) VStr ids). rewrite IH.
  rewrite filter_cons.
  destruct (m !! Some i) as [badge|] eqn:Hi.
  - by rewrite decide_False.
  - by rewrite decide_True.
Qed.

Lemma index_by_id_entries (xs : list record) :
  ∀ acc m (P : option string → value → Prop),
    index_by_id acc xs = Ok m →
    (∀ k v, acc !! k = Some v → P k v) →
    (∀ k v, from_catalog xs k v → P k v) →
    ∀ k v, m !! k = Some v → P k v.
Proof.
  induction xs as [|x xs IH]; intros acc m P Hindex Hacc Hxs k v Hk.
  - injection Hindex as <-. eauto.
  - simpl in Hindex. unfold item in Hindex.
    destruct (x !! "id") as [i|] eqn:Hid; [|done]. simpl in Hindex.
    destruct (hash_key i) as [kx|] eqn:Hhash; [|done]. simpl in Hindex.
    eapply (IH _ _ P Hindex); [| |done].
    + intros k' v' Hk'. destruct (decide (kx = k')) as [<-|Hne].
      * rewrite lookup_insert_eq in Hk'. injection Hk' as <-.
        apply Hxs. exists x. split; [apply elem_of_cons; by left|].
        split; [done|]. unfold get. rewrite Hid. simpl. eauto.
      * rewrite lookup_insert_ne in Hk' by done. eauto.
    + intros k' v' (b & Hb & Hv & Hhb). apply Hxs. exists b.
      split; [apply elem_of_cons; by right|done].
Qed.

Lemma badge_fold_entries (badges : list (string * list record)) :
  ∀ (start : outcome (gmap (option string) value)) m,
    fold_left
      (fun so_far '(category, items) =>
         bind so_far (fun m0 => index_by_id m0 items))
      badges start = Ok m →
    ∃ acc,
      start = Ok acc
      ∧ ∀ k v, m !! k = Some v →
          acc !! k = Some v
          ∨ ∃ category items, (category, items) ∈ badges ∧ from_catalog items k v.
Proof.
  induction badges as [|[category items] badges IH]; intros start m Hfold.
  - simpl in Hfold. exists m. split; [done|]. eauto.
  - simpl in Hfold. apply IH in Hfold as (acc' & Hstep & Hlater).
    destruct start as [acc|e]; [|done]. simpl in Hstep.
    exists acc. split; [done|]. intros k v Hk.
    destruct (Hlater k v Hk) as [Hacc'|(c & its & Hin & Hfrom)].
    + clear Hk. revert k v Hacc'.
      apply (index_by_id_entries items acc acc'
               (λ k v, acc !! k = Some v
                       ∨ ∃ category0 items0,
                           (category0, items0) ∈ (category, items) :: badges
                           ∧ from_catalog items0 k v)); [done|eauto|].
      intros k v Hfrom. right. exists category, items.
      split; [apply elem_of_cons; by left|done].
    + right. exists c, its. split; [apply elem_of_cons; by right|done].
Qed.

Lemma badge_map_entries (badges : list (string * list record)) m k v :
  badge_map badges = Ok m →
  m !! k = Some v →
  ∃ category items, (category, items) ∈ badges ∧ from_catalog items k v.
Proof.
  intros Hmap Hk. apply badge_fold_entries in Hmap as (acc & Hacc & Hentries).
  injection Hacc as <-.
  destruct (Hentries k v Hk) as [Hempty|Hfrom]; [|done].
  by rewrite lookup_empty in Hempty.
Qed.
End Badges.

(** C9: for an author whose "badges" is a list of badge ids, the badge
    step replaces the list by the catalog entities of the ids found in the
    badge map, in the order of the list; every id that is not found is left
    out and one warning is printed for it; nothing is raised. Every entity
    put in the list is a badge of the catalog that carries the id it was
    looked up by. *)
Theorem badge_resolution (badges : list (string * list record))
    (badge_map : gmap (option string) value) (author : record) (ids : list string) :
  RolesAndBadges.badge_map badges = Ok badge_map →
  author !! "badges" = Some (VList (VStr <$> ids)) →
  RolesAndBadges.replace_badges badge_map author
  = (<["badges" := VList (omap (λ i, badge_map !! Some i) ids)]> author,
     (λ i, RolesAndBadges.BadgeNotFound (VStr i))
       <$> filter (λ i, badge_map !! Some i = None) ids,
     Ok ())
  ∧ ∀ i entity,
      badge_map !! Some i = Some entity →
      ∃ category items b,
        (category, items) ∈ badges ∧ b ∈ items
        ∧ entity = VDict b ∧ b !! "id" = Some (VStr i).
Proof.
  intros Hmap Hbadges. split.
  - unfold RolesAndBadges.replace_badges. rewrite Hbadges.
    destruct ids as [|i ids].
    + simpl. by rewrite insert_id.
    + replace (truthy (VList (VStr <$> (i :: ids)))) with true by done.
      cbn [RolesAndBadges.iterate]. by rewrite resolve_badges_ids.
  - intros i entity Hi.
    destruct (badge_map_entries badges badge_map _ _ Hmap Hi)
      as (category & items & Hin & b & Hb & -> & Hkey & [x Hx]).
    exists category, items, b. repeat (split; [done|]).
    unfold get in Hkey. rewrite Hx in Hkey. simpl in Hkey.
    destruct x; simpl in Hkey; try done. by injection Hkey as ->.
Qed.

Lemma badge_resolution_witness :
  let mentor : record := {["id" := VStr "B01"; "name" := VStr "Mentor"]} in
  let writer : record := {["id" := VStr "B02"; "name" := VStr "Writer"]} in
  let badges := [("community", [mentor]); ("content", [writer])] in
  let badge_map : gmap (option string) value :=
    <[Some "B02" := VDict writer]> (<[Some "B01" := VDict mentor]> ∅) in
  let author : record :=
    {["id" := VStr "A001"; "badges" := VList (VStr <$> ["B02"; "B77"; "B01"])]} in
  RolesAndBadges.replace_badges badge_map author
  = (<["badges" := VList (omap (λ i, badge_map !! Some i) ["B02"; "B77"; "B01"])]> author,
     (λ i, RolesAndBadges.BadgeNotFound (VStr i))
       <$> filter (λ i, badge_map !! Some i = None) ["B02"; "B77"; "B01"],
     Ok ())
  ∧ ∀ i entity,
      badge_map !! Some i = Some entity →
      ∃ category items b,
        (category, items) ∈ badges ∧ b ∈ items
        ∧ entity = VDict b ∧ b !! "id" = Some (VStr i).
Proof.
  intros mentor writer badges badge_map author.
  apply (badge_resolution badges badge_map author ["B02"; "B77"; "B01"]).
  - reflexivity.
  - vm_compute. reflexivity.
Defined.

Example badges_resolved_in_order :
  let mentor : record := {["id" := VStr "B01"; "name" := VStr "Mentor"]} in
  let writer : record := {["id" := VStr "B02"; "name" := VStr "Writer"]} in
  let badge_map : gmap (option string) value :=
    <[Some "B02" := VDict writer]> (<[Some "B01" := VDict mentor]> ∅) in
  RolesAndBadges.replace_badges badge_map
    {["id" := VStr "A001"; "badges" := VList (VStr <$> ["B02"; "B77"; "B01"])]}
  = ({["id" := VStr "A001"; "badges" := VList [VDict writer; VDict mentor]]},
     [RolesAndBadges.BadgeNotFound (VStr "B77")], Ok ()).
Proof. by vm_compute. Qed.

(** ** Merging a candidate into a store *)

Section Merge.
Implicit Types (data events : list record) (job event : record) (i t : value).

Lemma hash_key_inj (a b : value) k :
  hash_key a = Ok k → hash_key b = Ok k → a = b.
Proof. destruct a, b; simpl; intros Ha Hb; congruence. Qed.

Lemma hashable_hash_key (v : value) :
  hashable v → ∃ k, hash_key v = Ok k.
Proof. destruct v; simpl; intros Hv; try done; eauto. Qed.

Lemma existsb_job_ids data i :
  existsb (λ j, bool_decide (get j "id" = i)) data = bool_decide (i ∈ job_ids data).
Proof.
  induction data as [|j data IH]; simpl.
  - done.
  - rewrite IH. unfold job_ids. simpl.
    destruct (decide (get j "id" = i)) as [Heq|Hne].
    + rewrite (bool_decide_eq_true_2 _ Heq). simpl. symmetry.
      apply bool_decide_eq_true. apply elem_of_cons. by left.
    + rewrite (bool_decide_eq_false_2 _ Hne). simpl.
      apply bool_decide_ext. rewrite elem_of_cons.
      split; [by right|]. by intros [Heq|Hin].
Qed.

Lemma id_exists_spec data job i :
  job !! "id" = Some i →
  Recruitments.id_exists data job = Ok (bool_decide (i ∈ job_ids data)).
Proof.
  intros Hid. unfold Recruitments.id_exists, item. rewrite Hid.
  destruct data as [|j data].
  - done.
  - simpl bind. f_equal. apply (existsb_job_ids (j :: data)).
Qed.

Lemma existing_titles_spec events :
  Forall (λ e, hashable (get e "title")) events →
  ∃ titles,
    Events.existing_titles events = Ok titles
    ∧ ∀ t k, hash_key t = Ok k → (k ∈ titles ↔ t ∈ event_titles events).
Proof.
  induction 1 as [|e events He _ (titles & Htitles & Hin)].
  - exists ∅. split; [done|]. intros t k _. unfold event_titles. simpl.
    rewrite elem_of_nil. set_solver.
  - apply hashable_hash_key in He as [ke Hke].
    exists ({[ke]} ∪ titles). split.
    + simpl. rewrite Hke. simpl. by rewrite Htitles.
    + intros t k Hk. unfold event_titles. simpl. rewrite elem_of_cons.
      rewrite elem_of_union, elem_of_singleton, (Hin t k Hk).
      split; intros [Hhead|Htail]; eauto.
      * left. subst. by apply (hash_key_inj _ _ ke).
      * left. subst. congruence.
Qed.

Lemma existing_titles_sound events titles :
  Events.existing_titles events = Ok titles →
  Forall (λ e, hashable (get e "title")) events.
Proof.
  revert titles. induction events as [|e events IH]; intros titles Htitles; [done|].
  simpl in Htitles.
  destruct (hash_key (get e "title")) as [k|] eqn:Hk; [|done]. simpl in Htitles.
  destruct (Events.existing_titles events) as [rest|] eqn:Hrest; [|done].
  constructor; [|by eapply IH].
  by destruct (get e "title").
Qed.

Lemma merge_job_duplicate data job i :
  job !! "id" = Some i →
  i ∈ job_ids data →
  Recruitments.merge_job data job = (data, Ok (Recruitments.SkippedDuplicateJobId i)).
Proof.
  intros Hid Hin. unfold Recruitments.merge_job.
  rewrite (id_exists_spec _ _ _ Hid), (bool_decide_eq_true_2 _ Hin).
  unfold item. by rewrite Hid.
Qed.

Lemma merge_job_new data job i :
  job !! "id" = Some i →
  i ∉ job_ids data →
  Recruitments.merge_job data job
  = (job :: data, bind (item job "title") (λ t, Ok (Recruitments.AddedJob t))).
Proof.
  intros Hid Hin. unfold Recruitments.merge_job.
  by rewrite (id_exists_spec _ _ _ Hid), (bool_decide_eq_false_2 _ Hin).
Qed.

Lemma insert_event_duplicate file event t :
  event !! "title" = Some t →
  hashable t →
  Forall (λ e, hashable (get e "title")) (default [] file) →
  t ∈ event_titles (default [] file) →
  Events.insert_event file event = ([], Ok None).
Proof.
  intros Htitle [k Hk]%hashable_hash_key (titles & Htitles & Hin)%existing_titles_spec Hdup.
  unfold Events.insert_event, item. rewrite Htitles, Htitle. simpl. rewrite Hk. simpl.
  by rewrite bool_decide_eq_true_2 by by apply (Hin t k Hk).
Qed.

Lemma insert_event_new file event t :
  event !! "title" = Some t →
  hashable t →
  Forall (λ e, hashable (get e "title")) (default [] file) →
  t ∉ event_titles (default [] file) →
  Events.insert_event file event = ([], Ok (Some (event :: default [] file))).
Proof.
  intros Htitle [k Hk]%hashable_hash_key (titles & Htitles & Hin)%existing_titles_spec Hnew.
  unfold Events.insert_event, item. rewrite Htitles, Htitle. simpl. rewrite Hk. simpl.
  by rewrite bool_decide_eq_false_2 by by rewrite (Hin t k Hk).
Qed.

(** Whatever happens, the step leaves [data] alone or puts [job] in front
    of it, the latter only when no record of [data] has its id. *)
Lemma merge_job_data data job :
  (Recruitments.merge_job data job).1 = data
  ∨ (Recruitments.merge_job data job).1 = job :: data
    ∧ get job "id" ∉ job_ids data.
Proof.
  unfold Recruitments.merge_job.
  destruct (Recruitments.id_exists data job) as [[]|e] eqn:Hexists; simpl; eauto.
  right. split; [done|].
  destruct data as [|j data]; [apply not_elem_of_nil|].
  unfold Recruitments.id_exists, item in Hexists.
  destruct (job !! "id") as [i|] eqn:Hid; [|done]. cbn [bind] in Hexists.
  injection Hexists as Hexists.
  change (existsb (λ j0, bool_decide (get j0 "id" = i)) (j :: data) = false)
    in Hexists.
  rewrite existsb_job_ids in Hexists.
  apply bool_decide_eq_false in Hexists. unfold get. by rewrite Hid.
Qed.

Lemma insert_event_file file event :
  Events.file_after file (Events.insert_event file event).2 = file
  ∨ Events.file_after file (Events.insert_event file event).2
    = Some (event :: default [] file)
    ∧ get event "title" ∉ event_titles (default [] file).
Proof.
  unfold Events.insert_event. simpl.
  destruct (Events.existing_titles (default [] file)) as [titles|e] eqn:Htitles;
    simpl; [|by left].
  unfold item. destruct (event !! "title") as [t|] eqn:Htitle; simpl; [|by left].
  destruct (hash_key t) as [k|] eqn:Hk; simpl; [|by left].
  destruct (decide (k ∈ titles)) as [Hin|Hout].
  - rewrite (bool_decide_eq_true_2 _ Hin). by left.
  - rewrite (bool_decide_eq_false_2 _ Hout). right. split; [done|].
    apply existing_titles_sound in Htitles as Hall.
    apply existing_titles_spec in Hall as (titles' & Htitles' & Hin).
    rewrite Htitles in Htitles'. injection Htitles' as <-.
    unfold get. rewrite Htitle. simpl. by rewrite <- (Hin t k Hk).
Qed.
End Merge.

(** C1, as stated, fails on the reports: [insert_event] prints nothing, on a
    duplicate as on an insertion, and the recruitment loop raises [KeyError]
    instead of printing when the inserted job has no title. *)
Lemma merge_reports_differ :
  (∃ event,
      Events.post_to_json "Title: Meetup #events" = Ok event
      ∧ Events.insert_event (Some [event]) event = ([], Ok None)
      ∧ Events.insert_event None event = ([], Ok (Some [event])))
  ∧ (∃ job,
      Recruitments.parse_job_post
        {["id" := VStr "123"; "message" := VStr "We are hiring #recruitment"]} = Ok job
      ∧ Recruitments.merge_job [] job = ([job], Raise (KeyError "title"))).
Proof.
  split; eexists; (split; [reflexivity|]); [split|]; by vm_compute.
Qed.

(** C1, amended: if some record of the Collection has the identity key of
    the candidate ("id" for recruitment posts, "title" for events, titles
    being strings or null), the merge leaves the Collection unchanged;
    otherwise it puts the candidate at position 0. The recruitment loop
    prints the skipped-duplicate line in the first case and, for a job that
    has a title, the added line in the second. [insert_event] prints
    nothing in either case: it returns without writing on a duplicate and
    writes the array with the candidate in front otherwise. *)
Theorem merge_contract (data : list record) (job : record) (i : value)
    (file : option (list record)) (event : record) (t : value) :
  job !! "id" = Some i →
  event !! "title" = Some t →
  hashable t →
  Forall (λ e, hashable (get e "title")) (default [] file) →
  (i ∈ job_ids data →
     Recruitments.merge_job data job
     = (data, Ok (Recruitments.SkippedDuplicateJobId i)))
  ∧ (i ∉ job_ids data →
     (Recruitments.merge_job data job).1 = job :: data
     ∧ ∀ title, job !! "title" = Some title →
         Recruitments.merge_job data job
         = (job :: data, Ok (Recruitments.AddedJob title)))
  ∧ (t ∈ event_titles (default [] file) →
     Events.insert_event file event = ([], Ok None)
     ∧ Events.file_after file (Events.insert_event file event).2 = file)
  ∧ (t ∉ event_titles (default [] file) →
     Events.insert_event file event = ([], Ok (Some (event :: default [] file)))
     ∧ Events.file_after file (Events.insert_event file event).2
       = Some (event :: default [] file)).
Proof.
  intros Hid Htitle Ht Hfile. split; [|split; [|split]].
  - by apply merge_job_duplicate.
  - intros Hnew. rewrite (merge_job_new _ _ _ Hid Hnew). split; [done|].
    intros title Hjob. unfold item. by rewrite Hjob.
  - intros Hdup. by rewrite (insert_event_duplicate _ _ _ Htitle Ht Hfile Hdup).
  - intros Hnew. by rewrite (insert_event_new _ _ _ Htitle Ht Hfile Hnew).
Qed.

Lemma merge_contract_witness :
  let old : record := {["id" := VStr "123"; "title" := VStr "Tester"]} in
  let job : record := {["id" := VStr "124"; "title" := VStr "Backend Engineer"]} in
  let event : record := {["title" := VStr "Meetup"]} in
  (VStr "124" ∈ job_ids [old] →
     Recruitments.merge_job [old] job
     = ([old], Ok (Recruitments.SkippedDuplicateJobId (VStr "124"))))
  ∧ (VStr "124" ∉ job_ids [old] →
     (Recruitments.merge_job [old] job).1 = job :: [old]
     ∧ ∀ title, job !! "title" = Some title →
         Recruitments.merge_job [old] job
         = (job :: [old], Ok (Recruitments.AddedJob title)))
  ∧ (VStr "Meetup" ∈ event_titles (default [] (Some [event])) →
     Events.insert_event (Some [event]) event = ([], Ok None)
     ∧ Events.file_after (Some [event]) (Events.insert_event (Some [event]) event).2
       = Some [event])
  ∧ (VStr "Meetup" ∉ event_titles (default [] (Some [event])) →
     Events.insert_event (Some [event]) event
     = ([], Ok (Some (event :: default [] (Some [event]))))
     ∧ Events.file_after (Some [event]) (Events.insert_event (Some [event]) event).2
       = Some (event :: default [] (Some [event]))).
Proof.
  intros old job event.
  apply (merge_contract [old] job (VStr "124") (Some [event]) event (VStr "Meetup")).
  - reflexivity.
  - reflexivity.
  - exact I.
  - repeat constructor.
Defined.

(** C2: merging the same candidate a second time changes nothing: the
    Collection after the second merge is the Collection after the first,
    and the second merge takes the skipped-duplicate path (the recruitment
    loop prints the skipped-duplicate line; [insert_event] returns without
    writing). *)
Theorem merge_idempotent (data : list record) (job : record) (i : value)
    (file : option (list record)) (event : record) (t : value) :
  job !! "id" = Some i →
  event !! "title" = Some t →
  hashable t →
  Forall (λ e, hashable (get e "title")) (default [] file) →
  (let data1 := (Recruitments.merge_job data job).1 in
   Recruitments.merge_job data1 job
   = (data1, Ok (Recruitments.SkippedDuplicateJobId i)))
  ∧ (let file1 := Events.file_after file (Events.insert_event file event).2 in
     (Events.insert_event file1 event).2 = Ok None
     ∧ Events.file_after file1 (Events.insert_event file1 event).2 = file1).
Proof.
  intros Hid Htitle Ht Hfile. split.
  - intros data1. apply merge_job_duplicate; [done|]. subst data1.
    destruct (decide (i ∈ job_ids data)) as [Hdup|Hnew].
    + by rewrite (merge_job_duplicate _ _ _ Hid Hdup).
    + rewrite (merge_job_new _ _ _ Hid Hnew). simpl.
      apply elem_of_cons. left. unfold get. by rewrite Hid.
  - intros file1.
    assert (Forall (λ e, hashable (get e "title")) (default [] file1)
            ∧ t ∈ event_titles (default [] file1)) as [Hfile1 Hdup1].
    { subst file1.
      destruct (decide (t ∈ event_titles (default [] file))) as [Hdup|Hnew].
      - by rewrite (insert_event_duplicate _ _ _ Htitle Ht Hfile Hdup).
      - rewrite (insert_event_new _ _ _ Htitle Ht Hfile Hnew). simpl. split.
        + constructor; [|done]. unfold get. by rewrite Htitle.
        + apply elem_of_cons. left. unfold get. by rewrite Htitle. }
    by rewrite (insert_event_duplicate _ _ _ Htitle Ht Hfile1 Hdup1).
Qed.

Lemma merge_idempotent_witness :
  let old : record := {["id" := VStr "123"; "title" := VStr "Tester"]} in
  let job : record := {["id" := VStr "124"; "title" := VStr "Backend Engineer"]} in
  let event : record := {["title" := VStr "Meetup"]} in
  (let data1 := (Recruitments.merge_job [old] job).1 in
   Recruitments.merge_job data1 job
   = (data1, Ok (Recruitments.SkippedDuplicateJobId (VStr "124"))))
  ∧ (let file1 := Events.file_after None (Events.insert_event None event).2 in
     (Events.insert_event file1 event).2 = Ok None
     ∧ Events.file_after file1 (Events.insert_event file1 event).2 = file1).
Proof.
  intros old job event.
  apply (merge_idempotent [old] job (VStr "124") None event (VStr "Meetup")).
  - reflexivity.
  - reflexivity.
  - exact I.
  - constructor.
Defined.

(** C3: if the identity keys of a Collection are pairwise distinct, they
    still are after the merge of any candidate, whatever the merge prints
    or raises. *)
Theorem identity_keys_stay_unique (data : list record) (job : record)
    (file : option (list record)) (event : record) :
  NoDup (job_ids data) →
  NoDup (event_titles (default [] file)) →
  NoDup (job_ids (Recruitments.merge_job data job).1)
  ∧ NoDup (event_titles
             (default [] (Events.file_after file (Events.insert_event file event).2))).
Proof.
  intros Hdata Hfile. split.
  - destruct (merge_job_data data job) as [->|[-> Hnew]]; [done|].
    by constructor.
  - destruct (insert_event_file file event) as [->|[-> Hnew]]; [done|].
    by constructor.
Qed.

Lemma identity_keys_stay_unique_witness :
  let old : record := {["id" := VStr "123"; "title" := VStr "Tester"]} in
  let job : record := {["id" := VStr "124"; "title" := VStr "Backend Engineer"]} in
  let event : record := {["title" := VStr "Meetup"]} in
  NoDup (job_ids (Recruitments.merge_job [old] job).1)
  ∧ NoDup (event_titles
             (default [] (Events.file_after (Some [event])
                            (Events.insert_event (Some [event]) event).2))).
Proof.
  intros old job event.
  apply (identity_keys_stay_unique [old] job (Some [event]) event).
  - apply NoDup_singleton.
  - apply NoDup_singleton.
Defined.

(** ** The author hashtag *)

Section AuthorHashtag.
Import Re.

Lemma letter_class (a : ascii) :
  cls_match I (Chars false [("A"%char, "Z"%char)]) a = is_letter a.
Proof. destruct a as [[] [] [] [] [] [] [] []]; reflexivity. Qed.

Lemma hash_char (h : ascii) : char_match I "#" h = Ascii.eqb h "#".
Proof. destruct h as [[] [] [] [] [] [] [] []]; reflexivity. Qed.

Lemma take_4 a b c d rest :
  take_chars
    (String.length (String a (String b (String c (String d rest)))) - String.length rest)
    (String a (String b (String c (String d rest))))
  = String a (String b (String c (String d ""))).
Proof.
  replace (String.length (String a (String b (String c (String d rest)))) - String.length rest) with 4
    by (simpl; lia).
  unfold take_chars. simpl. by destruct rest.
Qed.

Lemma id_pattern_match_at (s : string) :
  match_at I FacebookPosts.id_pattern s = hash_id s.
Proof.
  unfold match_at, FacebookPosts.id_pattern.
  cbn [run lit].
  destruct s as [|h s]; [done|].
  rewrite hash_char. unfold hash_id.
  destruct (Ascii.eqb h "#"); cbn [andb];
    [|by repeat (destruct s as [|? s]; try done)].
  destruct s as [|a s]; [done|]. cbn [lit].
  rewrite letter_class.
  destruct (is_letter a); cbn [andb];
    [|by repeat (destruct s as [|? s]; try done)].
  cbn [exactly cls_match].
  destruct s as [|b s]; [done|].
  destruct (is_digit b); cbn [andb];
    [|by repeat (destruct s as [|? s]; try done)].
  destruct s as [|c s]; [done|].
  destruct (is_digit c); cbn [andb];
    [|by repeat (destruct s as [|? s]; try done)].
  destruct s as [|d s]; [done|].
  destruct (is_digit d); cbn [andb]; [|done].
  cbn [option_map]. rewrite Nat.sub_diag.
  destruct s; cbn [greedy more andb]; rewrite ?andb_false_r; by rewrite take_4.
Qed.

Lemma hash_is_no_letter : is_letter "#" = false.
Proof. reflexivity. Qed.
Lemma hash_is_no_digit : is_digit "#" = false.
Proof. reflexivity. Qed.

Lemma hash_id_app (s post : string) (l d1 d2 d3 : ascii) :
  s ≠ "" →
  hash_id s = None →
  hash_id (s +:+ String "#" (String l (String d1 (String d2 (String d3 post))))) = None.
Proof.
  intros Hs Hnone.
  destruct s as [|h s]; [done|].
  do 4 (destruct s as [|? s];
    [rewrite ?app_cons, app_empty_l; cbn [hash_id];
     by rewrite ?hash_is_no_letter, ?hash_is_no_digit, ?andb_false_r|]).
  rewrite !app_cons. cbn [hash_id] in *. by destruct (_ && _).
Qed.

Lemma search_id_app (pre post : string) (l d1 d2 d3 : ascii) :
  is_letter l → is_digit d1 → is_digit d2 → is_digit d3 →
  search I FacebookPosts.id_pattern pre = None →
  search I FacebookPosts.id_pattern
    (pre +:+ String "#" (String l (String d1 (String d2 (String d3 post)))))
  = Some (post, Some (String l (String d1 (String d2 (String d3 ""))))).
Proof.
  intros Hl H1 H2 H3.
  induction pre as [|c pre IH]; intros Hpre.
  - rewrite app_empty_l. cbn [search]. rewrite id_pattern_match_at.
    cbn. apply Is_true_true in Hl, H1, H2, H3. by rewrite Hl, H1, H2, H3.
  - rewrite app_cons. cbn [search] in *.
    rewrite id_pattern_match_at in Hpre |- *.
    destruct (hash_id (String c pre)) eqn:Hhere; cbn in Hpre; [done|].
    rewrite <- app_cons, hash_id_app; [by apply IH|done|done].
Qed.

Lemma digit_upper (d : ascii) : is_digit d → upper_char d = d.
Proof. by destruct d as [[] [] [] [] [] [] [] []]. Qed.
End AuthorHashtag.

(** C10: a '#', one letter of either case and three digits are taken as an
    author hashtag whatever follows them, so in "#A1234" the key is "A123";
    the key is the letter in upper case and the three digits, and it comes
    from the first such place of the message. [facebook_posts.py] and
    [news.py] agree. *)
Theorem author_hashtag (pre post : string) (l d1 d2 d3 : ascii) :
  is_letter l → is_digit d1 → is_digit d2 → is_digit d3 →
  FacebookPosts.author_key pre = None →
  let message := pre +:+ String "#" (String l (String d1 (String d2 (String d3 post)))) in
  let key := String (upper_char l) (String d1 (String d2 (String d3 ""))) in
  FacebookPosts.author_key message = Some key
  ∧ News.author_key message = Some key.
Proof.
  intros Hl H1 H2 H3 Hpre message key.
  assert (FacebookPosts.author_key message = Some key) as Hkey; [|by split].
  unfold FacebookPosts.author_key, Re.search_group in *.
  destruct (Re.search Re.I FacebookPosts.id_pattern pre) as [[rest g]|] eqn:Hsearch; [done|].
  subst message. rewrite (search_id_app _ _ _ _ _ _ Hl H1 H2 H3 Hsearch).
  unfold key, upper. cbn [fmap option_fmap option_map from_option map_chars id].
  by rewrite (digit_upper d1 H1), (digit_upper d2 H2), (digit_upper d3 H3).
Qed.

Lemma author_hashtag_witness :
  FacebookPosts.author_key "#A1234" = Some "A123"
  ∧ News.author_key "#A1234" = Some "A123".
Proof.
  apply (author_hashtag "" "4" "A" "1" "2" "3"); by vm_compute.
Defined.

Example author_hashtag_lower_case :
  FacebookPosts.author_key "Thanks #b0420!" = Some "B042".
Proof. by vm_compute. Qed.

(** ** Searching a labelled line *)

Section Engine.
Import Re.
Context {A : Type}.
Implicit Types (p : ascii → bool) (s t tail : string) (k : string → option A).

(** A greedy repetition stops where [lstrip_by] stops, as soon as what
    follows matches there. *)
Lemma greedy_lstrip p s k :
  is_Some (k (lstrip_by p s)) →
  greedy p None s k = k (lstrip_by p s).
Proof.
  induction s as [|c s IH]; intros Hk; [done|].
  cbn [greedy lstrip_by more less] in *. rewrite andb_true_r.
  destruct (p c); [|done].
  rewrite (IH Hk). by destruct Hk as [a ->].
Qed.
End Engine.

Section Lines.
Import Re.
Implicit Types (s rest more : string) (c : ascii) (p q : ascii → bool).

Lemma lstrip_by_ext p q s :
  (∀ a, p a = q a) → lstrip_by p s = lstrip_by q s.
Proof.
  intros Hpq. induction s as [|c s IH]; [done|].
  simpl. by rewrite Hpq, IH.
Qed.

Lemma lstrip_by_head p s c more :
  lstrip_by p s = String c more → p c = false.
Proof.
  induction s as [|a s IH]; [done|]. simpl.
  destruct (p a) eqn:Ha; [done|]. intros Heq. by injection Heq as <- _.
Qed.

Lemma lstrip_by_length p s : String.length (lstrip_by p s) ≤ String.length s.
Proof.
  induction s as [|c s IH]; [done|]. simpl. destruct (p c); simpl; lia.
Qed.

Lemma first_line_cons c s :
  first_line (String c s)
  = if Ascii.eqb c "010" then "" else String c (first_line s).
Proof.
  unfold first_line. simpl. destruct (Ascii.eqb c "010"); [done|].
  by destruct (split_char "010" s).
Qed.


Lemma space_is_no_line_feed c : is_space c = false → not_line_feed c = true.
Proof. by destruct c as [[] [] [] [] [] [] [] []]. Qed.

(** The first line is what stands before the first line feed. *)
Lemma first_line_split s :
  ∃ rest,
    s = first_line s +:+ rest
    ∧ (rest = "" ∨ ∃ r, rest = String "010" r)
    ∧ mem_char "010" (first_line s) = false.
Proof.
  induction s as [|c s (rest & Hs & Hrest & Hfree)].
  - exists "". by eauto.
  - rewrite first_line_cons. destruct (Ascii.eqb c "010") eqn:Hc.
    + apply Ascii.eqb_eq in Hc as ->. exists (String "010" s). by eauto.
    + exists rest. rewrite app_cons, <- Hs. split; [done|]. split; [done|].
      cbn [mem_char]. rewrite Hfree, orb_false_r. by rewrite Ascii.eqb_sym.
Qed.
End Lines.

Section Labelled.
Import Re.
Variable fl : flags.
Hypothesis one_line : DOTALL fl = false.
Implicit Types (label text tail more : string) (c : ascii).

Lemma dot_class a : cls_match fl Dot a = not_line_feed a.
Proof. unfold cls_match. by rewrite one_line. Qed.

Lemma match_at_labelled_none label text :
  lit fl label text = None → match_at fl (labelled label) text = None.
Proof. intros Hlit. unfold match_at, labelled. cbn [run]. by rewrite Hlit. Qed.


Lemma search_labelled_absent label text :
  after_label fl label text = None →
  search fl (labelled label) text = None.
Proof.
  induction text as [|a text IH]; cbn [after_label search].
  - destruct (lit fl label "") eqn:Hlit; [done|].
    by rewrite match_at_labelled_none.
  - destruct (lit fl label (String a text)) eqn:Hlit; [done|].
    rewrite match_at_labelled_none by done. apply IH.
Qed.

End Labelled.

(** ** Declared fields *)

Section Values.
Import Re.
Variable fl : flags.
Hypothesis one_line : DOTALL fl = false.
Implicit Types (label text tail rest s : string) (c : ascii) (n k : nat).

Lemma lit_drop label s rest :
  lit fl label s = Some rest → rest = drop_chars (String.length label) s.
Proof.
  revert s. induction label as [|a label IH]; intros s; cbn [lit].
  - intros [= <-]. by destruct s.
  - destruct s as [|b s]; [done|]. destruct (char_match fl a b); [|done].
    apply IH.
Qed.

Lemma drop_chars_tail n c s : drop_chars n s = drop_chars 1 (drop_chars n (String c s)).
Proof.
  revert c s. induction n as [|n IH]; intros c s; [done|].
  destruct s as [|b s]; [by destruct n|]. cbn [drop_chars]. apply IH.
Qed.

Lemma some_char_drop p n s :
  some_char p s = false → some_char p (drop_chars n s) = false.
Proof.
  revert s. induction n as [|n IH]; intros s; [by destruct s|].
  destruct s as [|c s]; [done|]. cbn [some_char drop_chars].
  intros [_ Hs]%orb_false_iff. by apply IH.
Qed.

(** After the white space that [\s*] may take, [(.+)] needs one character
    that is no line feed. *)
Lemma greedy_space_value {A} rest (k : string → option A) :
  k "" = None →
  (∀ c s, is_Some (k (String c s)) ↔ not_line_feed c = true) →
  is_Some (greedy is_space None rest k) ↔ some_char not_line_feed rest = true.
Proof.
  intros Hnil Hcons. induction rest as [|c rest IH]; cbn [greedy some_char].
  - rewrite Hnil. split; [by intros []|done].
  - cbn [more less]. rewrite andb_true_r, orb_true_iff, <- IH, <- (Hcons c rest).
    destruct (is_space c) eqn:Hc.
    + destruct (greedy is_space None rest k); [split; eauto|].
      split; [eauto|]. intros [H|H]; [exact H | by destruct H].
    + split; [eauto|]. intros _. apply Hcons. by apply space_is_no_line_feed.
Qed.

Lemma greedy_total {A} p s (k : string → option A) :
  (∀ t, is_Some (k t)) → is_Some (greedy p None s k).
Proof. intros Hk. rewrite greedy_lstrip; eauto. Qed.

Lemma match_at_labelled_value label text rest :
  lit fl label text = Some rest →
  is_Some (match_at fl (labelled label) text) ↔ some_char not_line_feed rest = true.
Proof.
  intros Hlit. unfold match_at, labelled. cbn [run]. rewrite Hlit.
  cbn [exactly option_map]. apply greedy_space_value; [done|].
  intros c s. cbn [exactly]. rewrite (dot_class fl one_line).
  destruct (not_line_feed c); [|split; [by intros []|done]].
  split; [done|]. intros _. apply greedy_total. eauto.
Qed.

Lemma search_labelled_behind label text bound k :
  some_char not_line_feed bound = false →
  drop_chars (String.length label) text = drop_chars k bound →
  search fl (labelled label) text = None.
Proof.
  intros Hbound. revert k. induction text as [|a text IH]; intros k Hdrop;
    cbn [search].
  - destruct (match_at fl (labelled label) "") eqn:Hm; [|done].
    destruct (lit fl label "") as [rest|] eqn:Hlit.
    + assert (is_Some (match_at fl (labelled label) "")) as Hsome by eauto.
      apply (match_at_labelled_value _ _ _ Hlit) in Hsome.
      rewrite (lit_drop _ _ _ Hlit), Hdrop, some_char_drop in Hsome; done.
    + by rewrite match_at_labelled_none in Hm.
  - destruct (match_at fl (labelled label) (String a text)) eqn:Hm.
    + destruct (lit fl label (String a text)) as [rest|] eqn:Hlit.
      * assert (is_Some (match_at fl (labelled label) (String a text))) as Hsome
          by eauto.
        apply (match_at_labelled_value _ _ _ Hlit) in Hsome.
        rewrite (lit_drop _ _ _ Hlit), Hdrop, some_char_drop in Hsome; done.
      * by rewrite match_at_labelled_none in Hm.
    + apply (IH (S k)). rewrite (drop_chars_tail _ a), Hdrop.
      clear. revert bound. induction k as [|k IHk]; intros bound.
      * by destruct bound.
      * destruct bound as [|b bound]; [done|]. cbn [drop_chars]. apply IHk.
Qed.

(** [label\s*(.+)] is found exactly when the label has a value. *)
Lemma search_labelled_value label text :
  is_Some (search fl (labelled label) text) ↔ has_value fl label text = true.
Proof.
  unfold has_value.
  induction text as [|a text IH]; cbn [search after_label].
  - destruct (lit fl label "") as [rest|] eqn:Hlit.
    + rewrite <- (match_at_labelled_value _ _ _ Hlit).
      destruct (match_at fl (labelled label) ""); [done|].
      split; by intros [].
    + rewrite match_at_labelled_none by done. split; [by intros []|done].
  - destruct (lit fl label (String a text)) as [rest|] eqn:Hlit.
    + rewrite <- (match_at_labelled_value _ _ _ Hlit).
      destruct (match_at fl (labelled label) (String a text)) eqn:Hm; [done|].
      assert (some_char not_line_feed rest = false) as Hrest.
      { destruct (some_char not_line_feed rest) eqn:Hs; [|done].
        apply (match_at_labelled_value _ _ _ Hlit) in Hs. rewrite Hm in Hs.
        by destruct Hs. }
      rewrite (search_labelled_behind label text rest 1 Hrest).
      * split; by intros [].
      * rewrite (drop_chars_tail _ a). by rewrite <- (lit_drop _ _ _ Hlit).
    + rewrite match_at_labelled_none by done. apply IH.
Qed.
End Values.

(** C6, as stated, fails for the recruitment parser: a post without a
    "Position:" line yields a Record that has no "title" key at all. *)
Lemma recruitment_title_missing :
  ∃ job,
    Recruitments.parse_job_post
      {["id" := VStr "1"; "message" := VStr "We are hiring #recruitment"]} = Ok job
    ∧ job !! "title" = None.
Proof. eexists. split; [reflexivity|]. by vm_compute. Qed.

(** A label that ends the text has no value, and the key is left out; a
    label followed by one blank has the empty string as its value. *)
Example label_without_a_value :
  has_value Re.no_flags "Position:" "We hire #recruitment Position:" = false
  ∧ (∃ job,
      Recruitments.parse_job_post
        {["id" := VStr "1"; "message" := VStr "We hire #recruitment Position:"]}
      = Ok job
      ∧ job !! "title" = None)
  ∧ has_value Re.no_flags "Position:" "Position: " = true
  ∧ (∃ job,
      Recruitments.parse_job_post {["id" := VStr "1"; "message" := VStr "Position: "]}
      = Ok job
      ∧ job !! "title" = Some (VStr "")).
Proof.
  split; [by vm_compute|]. split; [eexists; split; by vm_compute|].
  split; [by vm_compute|]. eexists. split; by vm_compute.
Qed.

(** C6, amended: every Record of the event parser has all nine declared
    fields; a field whose label is absent, or has nothing but line feeds
    after it, is null (the gradient for background). A Record of the
    recruitment parser always has id, created_time and full_picture; each of
    its one-line fields is a present key exactly when its label stands in
    the text and some character other than a line feed stands after the
    first occurrence of the label, and is absent from the Record otherwise. *)
Theorem declared_fields (text : string) (post : record) (message : string) :
  Recruitments.message_of post = VStr message →
  (∃ data,
      Events.post_to_json text = Ok data
      ∧ ∀ key label,
          (key, Re.labelled label) ∈ Events.patterns →
          is_Some (data !! key)
          ∧ (has_value Re.I label text = false →
             data !! key
             = Some (if String.eqb key "background"
                     then VStr Events.default_background else VNone)))
  ∧ (∃ job,
      Recruitments.parse_job_post post = Ok job
      ∧ is_Some (job !! "id")
      ∧ is_Some (job !! "created_time")
      ∧ is_Some (job !! "full_picture")
      ∧ ∀ key label,
          (key, label) ∈ one_line_fields →
          (is_Some (job !! key)
           ↔ has_value Re.no_flags label (Recruitments.remove_emojis message) = true)).
Proof.
  intros Hmessage. split.
  - destruct (post_to_json_fields text) as (data & Hdata & Hkeys).
    exists data. split; [done|].
    intros key label Hin. rewrite (Hkeys _ _ Hin). split; [eauto|].
    intros Habsent.
    assert (Re.search_group Re.I (Re.labelled label) text = None) as Hnone.
    { unfold Re.search_group.
      destruct (Re.search Re.I (Re.labelled label) text) as [m|] eqn:Hsearch;
        [|done].
      assert (is_Some (Re.search Re.I (Re.labelled label) text)) as Hsome by eauto.
      apply (search_labelled_value Re.I eq_refl) in Hsome. congruence. }
    rewrite (parse_field_absent _ _ _ Hnone).
    unfold after_default_rules. simpl.
    destruct (String.eqb key "background"); [done|].
    by destruct (_ || _).
  - destruct (parse_job_post_fields post message Hmessage)
      as (job & Hjob & Hid & Htime & Hpicture & Hfields).
    exists job. repeat (split; [done|]).
    intros key label Hin. rewrite (Hfields _ _ Hin).
    rewrite fmap_is_Some. unfold Recruitments.one_line.
    rewrite fmap_is_Some, <- (search_labelled_value Re.no_flags eq_refl).
    unfold Re.search_group.
    destruct (Re.search Re.no_flags _ _) as [[rest g]|]; [split; eauto|].
    split; by intros [].
Qed.

Lemma declared_fields_witness :
  (∃ data,
      Events.post_to_json "Title: Meetup" = Ok data
      ∧ ∀ key label,
          (key, Re.labelled label) ∈ Events.patterns →
          is_Some (data !! key)
          ∧ (has_value Re.I label "Title: Meetup" = false →
             data !! key
             = Some (if String.eqb key "background"
                     then VStr Events.default_background else VNone)))
  ∧ (∃ job,
      Recruitments.parse_job_post {["message" := VStr "Position: Tester"]} = Ok job
      ∧ is_Some (job !! "id")
      ∧ is_Some (job !! "created_time")
      ∧ is_Some (job !! "full_picture")
      ∧ ∀ key label,
          (key, label) ∈ one_line_fields →
          (is_Some (job !! key)
           ↔ has_value Re.no_flags label
               (Recruitments.remove_emojis "Position: Tester") = true)).
Proof.
  apply (declared_fields "Title: Meetup" {["message" := VStr "Position: Tester"]}
           "Position: Tester").
  vm_compute. reflexivity.
Defined.

(** ** One-line fields *)




Example title_after_a_blank_label :
  ∃ data,
    Events.post_to_json ("Title:" +:+ nl +:+ "Date: 2025-12-01") = Ok data
    ∧ data !! "title" = Some (VStr "Date: 2025-12-01").
Proof. eexists. split; by vm_compute. Qed.

(** ** The title of a Facebook post *)

Section Titles.
Implicit Types (message k : string) (post : record).

Lemma enrich_lookup authors message post k :
  k ≠ "author" → k ≠ "category" →
  FacebookPosts.enrich authors message post !! k = post !! k.
Proof.
  intros Hauthor Hcategory. unfold FacebookPosts.enrich.
  destruct (Re.search_group Re.I FacebookPosts.ca_category_pattern message);
    [rewrite lookup_insert_ne by done|];
    destruct (FacebookPosts.author_key message); try done;
    destruct (authors !! _); try done; by rewrite lookup_insert_ne.
Qed.

Lemma title_of_fallback message :
  Re.search Re.I FacebookPosts.title_pattern message = None →
  FacebookPosts.title_of message = strip (first_line message).
Proof.
  intros Hnone. unfold FacebookPosts.title_of, Re.search_group. by rewrite Hnone.
Qed.

Lemma clean_post_title authors post message post_id created_time permalink_url :
  post !! "message" = Some (VStr message) →
  message ≠ "" →
  post !! "id" = Some post_id →
  post !! "created_time" = Some created_time →
  post !! "permalink_url" = Some permalink_url →
  ∃ clean,
    FacebookPosts.clean_post authors post = Ok (Some clean)
    ∧ clean !! "title" = Some (VStr (FacebookPosts.title_of message)).
Proof.
  intros Hmessage Hnonempty Hid Htime Hlink.
  unfold FacebookPosts.clean_post. rewrite Hmessage.
  cbn [from_option id truthy].
  apply String.eqb_neq in Hnonempty. rewrite Hnonempty.
  cbn [negb as_str bind]. unfold item.
  rewrite !enrich_lookup by done. rewrite Hid, Htime, Hlink. cbn [bind].
  eexists. split; [reflexivity|].
  repeat match goal with
         | |- context [match ?x with Some _ => _ | None => _ end] => destruct x
         end;
    by simplify_map_eq.
Qed.
End Titles.

(** C7, as stated, fails: the fallback takes the first line of the message
    even when that line is empty. *)
Lemma first_line_may_be_empty :
  let message := nl +:+ "Hello #posts" in
  let post : record :=
    {["id" := VStr "1"; "message" := VStr message;
      "created_time" := VStr "2025-01-01";
      "permalink_url" := VStr "https://fb.com/1"]} in
  Re.search Re.I FacebookPosts.title_pattern message = None
  ∧ Spec.first_non_empty_line message = "Hello #posts"
  ∧ ∃ clean,
      FacebookPosts.clean_post ∅ post = Ok (Some clean)
      ∧ clean !! "title" = Some (VStr "").
Proof.
  split; [by vm_compute|]. split; [by vm_compute|].
  eexists. split; by vm_compute.
Qed.

(** C7, amended: for every post whose message has no match of the title
    pattern, the title of the produced record is the first line of the raw
    message, that is the text before its first line feed, trimmed; it is
    empty when that line is empty or blank. *)
Theorem title_fallback (authors : gmap (option string) value) (post : record)
    (message : string) (post_id created_time permalink_url : value) :
  post !! "message" = Some (VStr message) →
  message ≠ "" →
  post !! "id" = Some post_id →
  post !! "created_time" = Some created_time →
  post !! "permalink_url" = Some permalink_url →
  Re.search Re.I FacebookPosts.title_pattern message = None →
  ∃ clean rest,
    FacebookPosts.clean_post authors post = Ok (Some clean)
    ∧ clean !! "title" = Some (VStr (strip (first_line message)))
    ∧ message = first_line message +:+ rest
    ∧ (rest = "" ∨ ∃ r, rest = String "010" r)
    ∧ mem_char "010" (first_line message) = false.
Proof.
  intros Hmessage Hnonempty Hid Htime Hlink Hsearch.
  destruct (clean_post_title authors post message _ _ _
              Hmessage Hnonempty Hid Htime Hlink) as (clean & Hclean & Htitle).
  destruct (first_line_split message) as (rest & Hsplit & Hrest & Hfree).
  exists clean, rest. rewrite <- (title_of_fallback _ Hsearch). by eauto.
Qed.

Lemma title_fallback_witness :
  let message := "Open day at the lab" +:+ nl +:+ "Come and see. #posts" in
  let post : record :=
    {["id" := VStr "1"; "message" := VStr message;
      "created_time" := VStr "2025-01-01";
      "permalink_url" := VStr "https://fb.com/1"]} in
  ∃ clean rest,
    FacebookPosts.clean_post ∅ post = Ok (Some clean)
    ∧ clean !! "title" = Some (VStr (strip (first_line message)))
    ∧ message = first_line message +:+ rest
    ∧ (rest = "" ∨ ∃ r, rest = String "010" r)
    ∧ mem_char "010" (first_line message) = false.
Proof.
  intros message post.
  apply (title_fallback ∅ post message (VStr "1") (VStr "2025-01-01")
           (VStr "https://fb.com/1")).
  - vm_compute. reflexivity.
  - vm_compute. discriminate.
  - vm_compute. reflexivity.
  - vm_compute. reflexivity.
  - vm_compute. reflexivity.
  - vm_compute. reflexivity.
Defined.

Example title_fallback_first_line :
  FacebookPosts.title_of ("Open day at the lab" +:+ nl +:+ "Come and see. #posts")
  = "Open day at the lab".
Proof. by vm_compute. Qed.

(** * Further properties *)

#[local] Set Warnings "-clear-no-such-hyp".

Ltac in_list := repeat (apply elem_of_cons; first [left; reflexivity | right]).

(** ** Removing the non-ASCII characters *)

Section Emojis.
Import Re.
Implicit Types (s : string) (n : nat) (c : ascii).

Lemma non_ascii_spec c : non_ascii c = negb (is_ascii c).
Proof.
  unfold non_ascii, is_ascii. cbn [cls_match in_ranges existsb IGNORECASE no_flags].
  by rewrite andb_false_l, !orb_false_r.
Qed.

Lemma emoji_match_at c s :
  match_at no_flags Recruitments.EMOJI_PATTERN (String c s)
  = if non_ascii c then Some (lstrip_by non_ascii s, None) else None.
Proof.
  unfold match_at, Recruitments.EMOJI_PATTERN. cbn [run exactly option_map].
  fold (non_ascii c). destruct (non_ascii c); [|done].
  by rewrite greedy_lstrip.
Qed.

Lemma sub_go_filter s :
  ∀ n, n ≤ String.length s - String.length (lstrip_by non_ascii s) →
    sub_go no_flags Recruitments.EMOJI_PATTERN n s = filter_chars is_ascii s.
Proof.
  induction s as [|c s IH]; intros n Hn; [done|].
  cbn [sub_go filter_chars].
  pose proof (lstrip_by_length non_ascii s) as Hle.
  cbn [lstrip_by String.length] in Hn.
  destruct n as [|n].
  - rewrite emoji_match_at. rewrite non_ascii_spec in *.
    destruct (is_ascii c); cbn [negb] in *.
    + f_equal. apply IH. lia.
    + cbn [String.length].
      destruct (S (String.length s) - String.length (lstrip_by non_ascii s))
        as [|m] eqn:Hm; [lia|].
      apply IH. lia.
  - rewrite non_ascii_spec in Hn.
    destruct (is_ascii c); cbn [negb String.length] in Hn; [lia|].
    apply IH. lia.
Qed.

End Emojis.

(** X1: [remove_emojis] deletes exactly the characters above code 127 and
    keeps every other character, in order. *)
Theorem remove_emojis_keeps_ascii (s : string) :
  Recruitments.remove_emojis s = filter_chars is_ascii s.
Proof. apply sub_go_filter. lia. Qed.

(** ** Blocks between two labels *)

Section Blocks.
Import Re.
Implicit Types (s t pre tail start stop text : string) (c : ascii).

Lemma take_chars_app pre s :
  take_chars (String.length (pre +:+ s) - String.length s) (pre +:+ s) = pre.
Proof.
  rewrite length_app, Nat.add_sub. unfold take_chars.
  induction pre as [|c pre IH]; [by destruct s|].
  rewrite app_cons. simpl. by rewrite IH.
Qed.

Lemma app_snoc pre c s : (pre +:+ String c "") +:+ s = pre +:+ String c s.
Proof. by rewrite app_assoc. Qed.

(** A lazy repetition of [.] under DOTALL stops at the first place where
    what follows matches. *)
Lemma lazy_cut stop s :
  ∀ pre,
    lazy (A:=string * option string) (cls_match S_ Dot) None s
      (λ s2,
         match lit S_ stop s2 with
         | Some rest =>
             Some (rest,
                   Some (take_chars
                           (String.length (pre +:+ s) - String.length s2)
                           (pre +:+ s)))
         | None => None
         end)
    = match cut_at stop s with
      | Some (before, rest) => Some (rest, Some (pre +:+ before))
      | None => None
      end.
Proof.
  induction s as [|c s IH]; intros pre.
  - cbn [lazy cut_at]. destruct (lit S_ stop "") as [rest|]; [|done].
    rewrite take_chars_app. by rewrite !app_empty_r.
  - cbn [lazy cut_at]. destruct (lit S_ stop (String c s)) as [rest|] eqn:Hlit.
    + rewrite take_chars_app. by rewrite app_empty_r.
    + cbn [cls_match DOTALL S_ orb more less andb].
      rewrite <- (app_snoc pre c s). rewrite IH.
      destruct (cut_at stop s) as [[before rest]|]; [|done].
      by rewrite app_snoc.
Qed.

Lemma match_at_between start stop text :
  match_at S_ (between start stop) text
  = match lit S_ start text with
    | Some (String c tail) =>
        match cut_at stop tail with
        | Some (body, rest) => Some (rest, Some (String c body))
        | None => None
        end
    | _ => None
    end.
Proof.
  unfold match_at, between. cbn [run].
  destruct (lit S_ start text) as [[|c tail]|]; [done| |done].
  cbn [exactly cls_match DOTALL S_ orb option_map].
  pose proof (lazy_cut stop tail (String c "")) as Hlazy.
  rewrite !app_cons, !app_empty_l in Hlazy.
  etrans; [|etrans; [exact Hlazy|]]; [done|].
  by destruct (cut_at stop tail) as [[body rest]|].
Qed.

Lemma cut_at_tail stop c s :
  cut_at stop (String c s) = None → cut_at stop s = None.
Proof.
  cbn [cut_at]. destruct (lit S_ stop (String c s)); [done|].
  by destruct (cut_at stop s) as [[? ?]|].
Qed.

Lemma lit_tail label s tail :
  lit S_ label s = Some tail → ∃ m, s = m +:+ tail.
Proof.
  revert s. induction label as [|a label IH]; intros s Hlit.
  - exists "". simpl in Hlit. by injection Hlit as ->.
  - destruct s as [|b s]; [done|]. cbn [lit] in Hlit.
    destruct (char_match S_ a b); [|done].
    destruct (IH _ Hlit) as [m ->]. by exists (String b m).
Qed.

Lemma cut_at_app stop m s :
  cut_at stop (m +:+ s) = None → cut_at stop s = None.
Proof.
  induction m as [|c m IH]; [done|]. rewrite app_cons.
  intros Hcut. apply IH. by eapply cut_at_tail.
Qed.

(** Without the closing label anywhere in the text there is no block. *)
Lemma block_unclosed start stop text :
  cut_at stop text = None → Recruitments.block start stop text = None.
Proof.
  intros Hstop. unfold Recruitments.block, search_group.
  assert (search S_ (between start stop) text = None) as ->; [|done].
  induction text as [|a text IH]; cbn [search]; rewrite match_at_between.
  - destruct (lit S_ start "") as [[|c tail]|] eqn:Hlit; try done.
    apply lit_tail in Hlit as [m Hm]. by destruct m.
  - pose proof (cut_at_tail _ _ _ Hstop) as Hrest.
    destruct (lit S_ start (String a text)) as [[|c tail]|] eqn:Hlit; [by apply IH| |by apply IH].
    apply lit_tail in Hlit as [m Hm]. rewrite Hm in Hstop.
    apply cut_at_app, cut_at_tail in Hstop. rewrite Hstop. by apply IH.
Qed.
End Blocks.

Section BlockFields.
Import Re.
Implicit Types (start stop text clean_text tail body rest key : string) (c : ascii) (job : record).

(** The block runs from the opening label to the first closing label that
    leaves at least one character in between. *)
Lemma block_closed start stop text c tail body rest :
  after_label S_ start text = Some (String c tail) →
  cut_at stop tail = Some (body, rest) →
  Recruitments.block start stop text = Some (String c body).
Proof.
  intros Hstart Hstop. unfold Recruitments.block, search_group.
  assert (search S_ (between start stop) text = Some (rest, Some (String c body)))
    as ->; [|done].
  induction text as [|a text IH]; cbn [search after_label] in *;
    rewrite match_at_between.
  - destruct (lit S_ start "") as [t|]; [|done].
    injection Hstart as ->. by rewrite Hstop.
  - destruct (lit S_ start (String a text)) as [t|].
    + injection Hstart as ->. by rewrite Hstop.
    + by apply IH.
Qed.
End BlockFields.

Section JobBlocks.
Implicit Types (start stop text clean_text tail body rest key : string) (c : ascii) (job : record).

Ltac through_blocks :=
  repeat first
    [ rewrite lookup_set_if_ne by done
    | rewrite lookup_insert_ne by done
    | match goal with |- context [if ?b then _ else _] => destruct b end ].

Lemma parse_text_block clean_text key start stop job :
  (key, (start, stop)) ∈ block_fields →
  job !! key = None →
  Recruitments.parse_text clean_text job !! key
  = block_value key <$> Recruitments.block start stop clean_text.
Proof.
  intros Hin Hfresh. unfold block_fields in Hin.
  repeat (apply elem_of_cons in Hin as [Hin|Hin]);
    try (by apply elem_of_nil in Hin);
    injection Hin as -> -> ->; unfold Recruitments.parse_text;
    through_blocks; rewrite lookup_set_if_eq; try done; through_blocks;
    try done; by destruct (Recruitments.block _ _ _).
Qed.

Lemma parse_job_post_blocks (post : record) message :
  Recruitments.message_of post = VStr message →
  ∃ job,
    Recruitments.parse_job_post post = Ok job
    ∧ ∀ key start stop,
        (key, (start, stop)) ∈ block_fields →
        job !! key
        = block_value key
            <$> Recruitments.block start stop (Recruitments.remove_emojis message).
Proof.
  intros Hmessage. unfold Recruitments.parse_job_post. rewrite Hmessage. simpl.
  eexists. split; [reflexivity|].
  intros key start stop Hin. apply parse_text_block; [done|].
  unfold block_fields in Hin.
  repeat (apply elem_of_cons in Hin as [Hin|Hin]);
    try (by apply elem_of_nil in Hin);
    injection Hin as -> -> ->; by simplify_map_eq.
Qed.
End JobBlocks.

(** X2: when the closing label of a block field ("Salary:" for location,
    "Benefits:" for requirements, "Deadline:" for benefits, "Apply:" for
    tags) stands nowhere in the text, the field is left out of the job, even
    if its opening label and its lines are there. *)
Theorem unclosed_block_is_dropped (post : record) (message key start stop : string) :
  Recruitments.message_of post = VStr message →
  (key, (start, stop)) ∈ block_fields →
  cut_at stop (Recruitments.remove_emojis message) = None →
  ∃ job, Recruitments.parse_job_post post = Ok job ∧ job !! key = None.
Proof.
  intros Hmessage Hin Hstop.
  destruct (parse_job_post_blocks post message Hmessage) as (job & Hjob & Hblocks).
  exists job. split; [done|].
  by rewrite (Hblocks _ _ _ Hin), block_unclosed.
Qed.

Lemma unclosed_block_is_dropped_witness :
  ∃ job,
    Recruitments.parse_job_post
      {["id" := VStr "7";
        "message" := VStr (join_lines ["Position: Tester"; "Requirements:"; "- Go";
                                       "Benefits:"; "- Insurance"; "#recruitment"])]}
    = Ok job
    ∧ job !! "benefits" = None.
Proof.
  apply (unclosed_block_is_dropped _
           (join_lines ["Position: Tester"; "Requirements:"; "- Go";
                        "Benefits:"; "- Insurance"; "#recruitment"])
           "benefits" "Benefits:" "Deadline:").
  - vm_compute. reflexivity.
  - vm_compute. set_solver.
  - vm_compute. reflexivity.
Defined.

(** X3: a block field holds what stands between the first occurrence of its
    opening label and the first occurrence of its closing label that leaves
    at least one character in between; lists are itemised from it. *)
Theorem block_runs_to_first_closing_label (post : record)
    (message key start stop tail body rest : string) (c : ascii) :
  Recruitments.message_of post = VStr message →
  (key, (start, stop)) ∈ block_fields →
  after_label Re.S_ start (Recruitments.remove_emojis message) = Some (String c tail) →
  cut_at stop tail = Some (body, rest) →
  ∃ job,
    Recruitments.parse_job_post post = Ok job
    ∧ job !! key = Some (block_value key (String c body)).
Proof.
  intros Hmessage Hin Hstart Hstop.
  destruct (parse_job_post_blocks post message Hmessage) as (job & Hjob & Hblocks).
  exists job. split; [done|].
  by rewrite (Hblocks _ _ _ Hin), (block_closed _ _ _ _ _ _ _ Hstart Hstop).
Qed.

Lemma block_runs_to_first_closing_label_witness :
  ∃ job,
    Recruitments.parse_job_post
      {["id" := VStr "7";
        "message" := VStr (join_lines ["Position: Tester"; "Requirements:"; "- Go";
                                       "- SQL"; "Benefits:"; "- Insurance"])]}
    = Ok job
    ∧ job !! "requirements"
      = Some (block_value "requirements" (nl +:+ "- Go" +:+ nl +:+ "- SQL" +:+ nl)).
Proof.
  apply (block_runs_to_first_closing_label _
           (join_lines ["Position: Tester"; "Requirements:"; "- Go";
                        "- SQL"; "Benefits:"; "- Insurance"])
           "requirements" "Requirements:" "Benefits:"
           ("- Go" +:+ nl +:+ "- SQL" +:+ nl +:+ "Benefits:" +:+ nl +:+ "- Insurance")
           ("- Go" +:+ nl +:+ "- SQL" +:+ nl)
           (nl +:+ "- Insurance") "010").
  - vm_compute. reflexivity.
  - unfold block_fields. in_list.
  - vm_compute. reflexivity.
  - vm_compute. reflexivity.
Defined.

(** ** The location of a job *)

(** X4: a location is always an object with exactly the fields type, address
    and city, all strings; a sub-label that is absent from the block gives
    the empty string. *)
Theorem location_has_three_string_fields (loc_block : string) :
  ∃ type address city,
    Recruitments.location_of loc_block
    = VDict {["type" := VStr type; "address" := VStr address; "city" := VStr city]}
    ∧ (after_label Re.no_flags "Type:" loc_block = None → type = "")
    ∧ (after_label Re.no_flags "Address:" loc_block = None → address = "")
    ∧ (after_label Re.no_flags "City:" loc_block = None → city = "").
Proof.
  unfold Recruitments.location_of, Re.search_group.
  do 3 eexists. split.
  - apply f_equal. apply map_eq. intros k.
    destruct (decide (k = "type")) as [->|?]; [by simplify_map_eq|].
    destruct (decide (k = "address")) as [->|?]; [by simplify_map_eq|].
    destruct (decide (k = "city")) as [->|?]; by simplify_map_eq.
  - repeat split; intros Habsent; by rewrite search_labelled_absent.
Qed.

(** ** Trimmed values *)

Section Strip.
Implicit Types (s t : string) (c : ascii) (p : ascii → bool).

Lemma rstrip_by_cons p c s :
  rstrip_by p (String c s)
  = match rstrip_by p s with
    | EmptyString => if p c then EmptyString else String c EmptyString
    | t => String c t
    end.
Proof. reflexivity. Qed.

Lemma rstrip_by_idemp p s : rstrip_by p (rstrip_by p s) = rstrip_by p s.
Proof.
  induction s as [|c s IH]; [done|]. rewrite rstrip_by_cons.
  destruct (rstrip_by p s) as [|d t] eqn:Hs.
  - destruct (p c) eqn:Hc; [done|]. cbn [rstrip_by]. by rewrite Hc.
  - rewrite rstrip_by_cons. by rewrite IH.
Qed.

Lemma rstrip_by_cons_keep p c s :
  p c = false → ∃ t, rstrip_by p (String c s) = String c t.
Proof.
  intros Hc. cbn [rstrip_by]. destruct (rstrip_by p s); rewrite ?Hc; by eexists.
Qed.

Lemma lstrip_rstrip_lstrip p s :
  lstrip_by p (rstrip_by p (lstrip_by p s)) = rstrip_by p (lstrip_by p s).
Proof.
  destruct (lstrip_by p s) as [|c t] eqn:Hs; [done|].
  apply lstrip_by_head in Hs as Hc.
  destruct (rstrip_by_cons_keep p c t Hc) as [u ->]. cbn [lstrip_by]. by rewrite Hc.
Qed.

Lemma strip_idemp s : strip (strip s) = strip s.
Proof.
  unfold strip. by rewrite lstrip_rstrip_lstrip, rstrip_by_idemp.
Qed.
End Strip.

Lemma parse_field_trimmed (key : string) (pattern : Re.regex) (text : string) :
  trimmed (Events.parse_field key pattern text).
Proof.
  unfold Events.parse_field.
  destruct (Re.search_group Re.I pattern text) as [g|]; [|done].
  destruct (String.eqb key "categories").
  - cbn [trimmed]. apply Forall_fmap, Forall_forall. intros piece _.
    eexists. split; [done|apply strip_idemp].
  - destruct (String.eqb _ "null"); [done|]. apply strip_idemp.
Qed.

Lemma after_default_rules_trimmed (key : string) (v : value) :
  trimmed v → trimmed (after_default_rules key v).
Proof.
  intros Hv. unfold after_default_rules.
  destruct (truthy v); [done|].
  destruct (String.eqb key "background"); [by vm_compute|].
  by destruct (_ || _).
Qed.

(** X5: no field of an event Record, nor any element of its categories, and
    no one-line field of a job has white space at its start or end. *)
Theorem parsed_values_are_trimmed (text : string) (post : record) (message : string) :
  Recruitments.message_of post = VStr message →
  (∃ data,
      Events.post_to_json text = Ok data
      ∧ ∀ key pattern v,
          (key, pattern) ∈ Events.patterns → data !! key = Some v → trimmed v)
  ∧ (∃ job,
      Recruitments.parse_job_post post = Ok job
      ∧ ∀ key label v,
          (key, label) ∈ one_line_fields → job !! key = Some v → trimmed v).
Proof.
  intros Hmessage. split.
  - destruct (post_to_json_fields text) as (data & Hdata & Hkeys).
    exists data. split; [done|].
    intros key pattern v Hin. rewrite (Hkeys _ _ Hin). intros Hv.
    injection Hv as <-. apply after_default_rules_trimmed, parse_field_trimmed.
  - destruct (parse_job_post_fields post message Hmessage)
      as (job & Hjob & _ & _ & _ & Hfields).
    exists job. split; [done|].
    intros key label v Hin. rewrite (Hfields _ _ Hin).
    unfold Recruitments.one_line.
    destruct (Re.search_group _ _ _) as [g|]; [|done].
    intros Hv. injection Hv as <-. apply strip_idemp.
Qed.

Lemma parsed_values_are_trimmed_witness :
  (∃ data,
      Events.post_to_json "Title:   Meetup  " = Ok data
      ∧ ∀ key pattern v,
          (key, pattern) ∈ Events.patterns → data !! key = Some v → trimmed v)
  ∧ (∃ job,
      Recruitments.parse_job_post {["message" := VStr "Position:  Tester "]} = Ok job
      ∧ ∀ key label v,
          (key, label) ∈ one_line_fields → job !! key = Some v → trimmed v).
Proof.
  apply (parsed_values_are_trimmed "Title:   Meetup  "
           {["message" := VStr "Position:  Tester "]} "Position:  Tester ").
  vm_compute. reflexivity.
Defined.

(** ** A whole run of recruitments.py *)

Section RecruitmentRun.
Implicit Types (data added : list record) (posts : list record) (post job : record).

Lemma process_post_data data post :
  (Recruitments.process_post data post).1 = data
  ∨ ∃ job,
      Recruitments.parse_job_post post = Ok job
      ∧ (Recruitments.process_post data post).1 = job :: data
      ∧ get job "id" ∉ job_ids data.
Proof.
  unfold Recruitments.process_post.
  destruct (as_str _) as [message|]; [|by left].
  destruct (contains _ _); [|by left].
  destruct (Recruitments.parse_job_post post) as [job|] eqn:Hjob; [|by left].
  destruct (merge_job_data data job) as [Hsame|[Hnew Hfresh]].
  - left. by destruct (Recruitments.merge_job data job).
  - right. exists job. by destruct (Recruitments.merge_job data job).
Qed.

Lemma loop_data posts :
  ∀ data,
    ∃ added,
      (Recruitments.loop data posts).1.1 = added ++ data
      ∧ Forall (λ job, ∃ post, post ∈ posts ∧ Recruitments.parse_job_post post = Ok job)
          added
      ∧ (NoDup (job_ids data) → NoDup (job_ids (added ++ data))).
Proof.
  induction posts as [|post posts IH]; intros data.
  - exists []. by eauto.
  - cbn [Recruitments.loop].
    pose proof (process_post_data data post) as Hstep.
    destruct (Recruitments.process_post data post) as [data' [printed|e]] eqn:Hpost;
      cbn [fst] in Hstep.
    + destruct (IH data') as (added & Hadded & Hfrom & Hnodup).
      destruct (Recruitments.loop data' posts) as [[data'' lines] result].
      cbn [fst] in *. subst data''.
      destruct Hstep as [->|(job & Hjob & -> & Hfresh)].
      * exists added. split; [done|]. split; [|done].
        eapply Forall_impl; [done|]. intros j (p & Hp & Hj). exists p.
        split; [by apply elem_of_cons; right|done].
      * exists (added ++ [job]). rewrite <- List.app_assoc. split; [done|]. split.
        -- apply Forall_app. split.
           ++ eapply Forall_impl; [done|]. intros j (p & Hp & Hj). exists p.
              split; [by apply elem_of_cons; right|done].
           ++ constructor; [|done]. exists post. split; [by apply elem_of_cons; left|done].
        -- intros Hdata. apply Hnodup. unfold job_ids. simpl. by constructor.
    + cbn [fst]. destruct Hstep as [->|(job & Hjob & -> & Hfresh)].
      * exists []. split; [done|]. by split.
      * exists [job]. split; [done|]. split.
        -- constructor; [|done]. exists post. split; [by apply elem_of_cons; left|done].
        -- intros Hdata. unfold job_ids. simpl. by constructor.
Qed.

Lemma loop_app before :
  ∀ data after data1 lines,
    Recruitments.loop data before = (data1, lines, Ok ()) →
    Recruitments.loop data (before ++ after)
    = (let '(data2, lines2, result) := Recruitments.loop data1 after in
       (data2, lines ++ lines2, result)).
Proof.
  induction before as [|post before IH]; intros data after data1 lines Hloop.
  - injection Hloop as <- <-. simpl. by destruct (Recruitments.loop data after) as [[? ?] ?].
  - cbn [Recruitments.loop app] in *.
    destruct (Recruitments.process_post data post) as [data' [printed|e]]; [|done].
    destruct (Recruitments.loop data' before) as [[data'' lines'] result] eqn:Hrest.
    injection Hloop as -> <- ->.
    rewrite (IH _ after _ _ Hrest).
    destruct (Recruitments.loop data1 after) as [[? ?] ?].
    by rewrite List.app_assoc.
Qed.

Lemma parse_job_post_id post message :
  Recruitments.message_of post = VStr message →
  ∃ job,
    Recruitments.parse_job_post post = Ok job
    ∧ job !! "id" = Some (get post "id")
    ∧ job !! "title"
      = VStr <$> Recruitments.one_line "Position:" (Recruitments.remove_emojis message).
Proof.
  intros Hmessage.
  destruct (parse_job_post_fields post message Hmessage)
    as (job & Hjob & _ & _ & _ & Hfields).
  exists job. split; [done|]. split.
  - unfold Recruitments.parse_job_post in Hjob. rewrite Hmessage in Hjob.
    simpl in Hjob. injection Hjob as <-. unfold Recruitments.parse_text.
    repeat first
      [ rewrite lookup_set_if_ne by done
      | rewrite lookup_insert_ne by done
      | match goal with |- context [if ?b then _ else _] => destruct b end ];
      by rewrite lookup_insert_eq.
  - apply Hfields. unfold one_line_fields. apply elem_of_cons. by left.
Qed.
End RecruitmentRun.

(** X6: a run of [recruitments.py] that reaches the saving only puts records
    in front of the stored array: the old records stay, in their order, behind
    the new ones; every new record is the parse of a post of the feed; and
    ids that were pairwise distinct still are. *)
Theorem run_only_prepends (file : option (list record)) (posts : list record)
    (lines : list Recruitments.message) (written : list record) :
  Recruitments.main file posts = (lines, Ok written) →
  ∃ added,
    written = added ++ default [] file
    ∧ Forall (λ job, ∃ post, post ∈ posts ∧ Recruitments.parse_job_post post = Ok job)
        added
    ∧ (NoDup (job_ids (default [] file)) → NoDup (job_ids written)).
Proof.
  unfold Recruitments.main. intros Hmain.
  destruct (loop_data posts (default [] file)) as (added & Hadded & Hfrom & Hnodup).
  destruct (Recruitments.loop (default [] file) posts) as [[data lines'] [[]|e]];
    [|done].
  injection Hmain as _ <-. cbn [fst] in Hadded. subst data. by exists added.
Qed.

Lemma run_only_prepends_witness :
  let old : record := {["id" := VStr "1"; "title" := VStr "Tester"]} in
  let post : record :=
    {["id" := VStr "2"; "message" := VStr "Position: Developer #recruitment"]} in
  ∃ added,
    [ {["id" := VStr "2"; "created_time" := VNone; "full_picture" := VNone;
        "title" := VStr "Developer #recruitment"]}; old ]
    = added ++ default [] (Some [old])
    ∧ Forall (λ job, ∃ p, p ∈ [post] ∧ Recruitments.parse_job_post p = Ok job) added
    ∧ (NoDup (job_ids (default [] (Some [old]))) →
       NoDup (job_ids
                [ {["id" := VStr "2"; "created_time" := VNone; "full_picture" := VNone;
                    "title" := VStr "Developer #recruitment"]}; old ])).
Proof.
  intros old post.
  apply (run_only_prepends (Some [old]) [post]
           [Recruitments.AddedJob (VStr "Developer #recruitment")]).
  vm_compute. reflexivity.
Defined.

(** X7: a new post tagged #recruitment without a "Position:" line stops the
    run with [KeyError] on 'title' before the saving, so nothing is written,
    the jobs merged from the posts before it included. *)
Theorem untitled_job_aborts_run (file : option (list record))
    (before after : list record) (post : record) (data1 : list record)
    (lines : list Recruitments.message) (message : string) :
  Recruitments.loop (default [] file) before = (data1, lines, Ok ()) →
  Recruitments.message_of post = VStr message →
  contains "#recruitment" (lower message) = true →
  Recruitments.one_line "Position:" (Recruitments.remove_emojis message) = None →
  get post "id" ∉ job_ids data1 →
  Recruitments.main file (before ++ post :: after) = (lines, Raise (KeyError "title")).
Proof.
  intros Hbefore Hmessage Htag Htitle Hnew.
  unfold Recruitments.main. rewrite (loop_app _ _ _ _ _ Hbefore).
  cbn [Recruitments.loop]. unfold Recruitments.process_post.
  rewrite Hmessage. cbn [as_str]. rewrite Htag.
  destruct (parse_job_post_id post message Hmessage) as (job & -> & Hid & Hjob).
  rewrite Htitle in Hjob.
  rewrite (merge_job_new _ _ _ Hid Hnew). unfold item. rewrite Hjob.
  cbn. by rewrite List.app_nil_r.
Qed.

Lemma untitled_job_aborts_run_witness :
  let post : record := {["id" := VStr "9"; "message" := VStr "We hire! #Recruitment"]} in
  Recruitments.main None ([] ++ post :: []) = ([], Raise (KeyError "title")).
Proof.
  intros post.
  apply (untitled_job_aborts_run None [] [] post [] [] "We hire! #Recruitment").
  - reflexivity.
  - vm_compute. reflexivity.
  - vm_compute. reflexivity.
  - vm_compute. reflexivity.
  - apply not_elem_of_nil.
Defined.

(** ** Events: the shape of a Record and a whole run *)

Section EventShapes.
Implicit Types (text key : string) (data : record).

Lemma split_go_nonempty fl r s : ∀ skip, Re.split_go fl r skip s ≠ [].
Proof.
  induction s as [|c s IH]; intros skip; [done|].
  cbn [Re.split_go]. destruct skip as [|n]; [|apply IH].
  destruct (Re.match_at fl r (String c s)) as [[rest g]|].
  - destruct (_ - _); [|done]. by destruct (Re.split_go fl r 0 s).
  - by destruct (Re.split_go fl r 0 s).
Qed.

Lemma parse_field_shape key pattern text :
  if String.eqb key "categories"
  then Events.parse_field key pattern text = VNone
       ∨ ∃ cs, cs ≠ [] ∧ Events.parse_field key pattern text = VList (VStr <$> cs)
  else Events.parse_field key pattern text = VNone
       ∨ ∃ s, Events.parse_field key pattern text = VStr s.
Proof.
  unfold Events.parse_field.
  destruct (Re.search_group Re.I pattern text) as [g|];
    [|destruct (String.eqb key "categories"); by left].
  destruct (String.eqb key "categories").
  - right. eexists (strip <$> Re.split Re.no_flags Events.separators (strip g)).
    split.
    + unfold Re.split. pose proof (split_go_nonempty Re.no_flags Events.separators (strip g) 0).
      by destruct (Re.split_go _ _ _ _).
    + by rewrite <- list_fmap_compose.
  - destruct (String.eqb _ "null"); eauto.
Qed.
End EventShapes.

(** X8: in every Record of [post_to_json] the background is a non-empty
    string, logo and members are null or a non-empty string, the other
    one-line fields are null or a string, and categories is null or a
    non-empty list of strings. *)
Theorem event_field_shapes (text : string) :
  ∃ data,
    Events.post_to_json text = Ok data
    ∧ (∃ s, data !! "background" = Some (VStr s) ∧ s ≠ "")
    ∧ (∀ key, key ∈ ["logo"; "members"] →
         data !! key = Some VNone ∨ ∃ s, data !! key = Some (VStr s) ∧ s ≠ "")
    ∧ (∀ key, key ∈ ["title"; "date"; "location"; "url"; "description"] →
         data !! key = Some VNone ∨ ∃ s, data !! key = Some (VStr s))
    ∧ (data !! "categories" = Some VNone
       ∨ ∃ cs, cs ≠ [] ∧ data !! "categories" = Some (VList (VStr <$> cs))).
Proof.
  destruct (post_to_json_fields text) as (data & Hdata & Hkeys).
  exists data. split; [done|].
  split; [|split; [|split]].
  - rewrite (Hkeys "background" (Re.labelled "Background:"))
      by (unfold Events.patterns; in_list).
    pose proof (parse_field_shape "background" (Re.labelled "Background:") text) as Hshape.
    cbn [String.eqb Ascii.eqb] in Hshape. unfold after_default_rules.
    destruct Hshape as [->|[s ->]]; cbn.
    + by eexists.
    + destruct s; cbn; by eexists.
  - intros key Hkey.
    apply elem_of_cons in Hkey as [->|Hkey];
      [|apply elem_of_cons in Hkey as [->|Hkey]; [|by apply elem_of_nil in Hkey]].
    + rewrite (Hkeys "logo" (Re.labelled "Logo:"))
        by (unfold Events.patterns; in_list).
      pose proof (parse_field_shape "logo" (Re.labelled "Logo:") text) as Hshape.
      cbn [String.eqb Ascii.eqb] in Hshape. unfold after_default_rules.
      destruct Hshape as [->|[s ->]]; cbn; [by left|].
      destruct s; cbn; [by left|right; by eexists].
    + rewrite (Hkeys "members" (Re.labelled "Members:"))
        by (unfold Events.patterns; in_list).
      pose proof (parse_field_shape "members" (Re.labelled "Members:") text) as Hshape.
      cbn [String.eqb Ascii.eqb] in Hshape. unfold after_default_rules.
      destruct Hshape as [->|[s ->]]; cbn; [by left|].
      destruct s; cbn; [by left|right; by eexists].
  - intros key Hkey.
    assert (∃ pattern, (key, pattern) ∈ Events.patterns
                       ∧ String.eqb key "categories" = false
                       ∧ String.eqb key "background" = false
                       ∧ (String.eqb key "logo" || String.eqb key "members") = false)
      as (pattern & Hpattern & Hc & Hb & Hl).
    { repeat (apply elem_of_cons in Hkey as [->|Hkey]);
        [..|by apply elem_of_nil in Hkey];
        eexists; (split; [unfold Events.patterns; in_list|done]). }
    rewrite (Hkeys _ _ Hpattern).
    pose proof (parse_field_shape key pattern text) as Hshape. rewrite Hc in Hshape.
    unfold after_default_rules. rewrite Hb, Hl.
    destruct Hshape as [->|[s ->]]; [left|right; exists s]; by destruct (truthy _).
  - rewrite (Hkeys "categories" (Re.labelled "Categories:"))
      by (unfold Events.patterns; in_list).
    pose proof (parse_field_shape "categories" (Re.labelled "Categories:") text) as Hshape.
    cbn [String.eqb Ascii.eqb] in Hshape. unfold after_default_rules.
    destruct Hshape as [->|(cs & Hcs & ->)]; [by left|right].
    exists cs. split; [done|]. f_equal. by destruct (truthy (VList (VStr <$> cs))).
Qed.

Section EventRun.
Implicit Types (file : option (list record)) (posts added : list record) (post event : record).

Lemma process_post_file file post :
  Events.file_after file (Events.process_post file post) = file
  ∨ ∃ event message,
      post !! "message" = Some (VStr message)
      ∧ Events.post_to_json message = Ok event
      ∧ Events.file_after file (Events.process_post file post)
        = Some (event :: default [] file)
      ∧ get event "title" ∉ event_titles (default [] file).
Proof.
  unfold Events.process_post.
  destruct (post !! "message") as [v|] eqn:Hmessage; [|by left].
  cbn [from_option id]. destruct (truthy v); cbn [negb]; [|by left].
  destruct v as [|message| |]; cbn [as_str]; try by left.
  destruct (contains _ _); [|by left].
  destruct (Events.post_to_json message) as [event|] eqn:Hevent; [|by left].
  cbn [bind].
  destruct (insert_event_file file event) as [Hsame|[Hnew Hfresh]]; [by left|].
  right. by exists event, message.
Qed.

Lemma events_main_file posts :
  ∀ file,
    ∃ added,
      default [] (Events.main file posts).1 = added ++ default [] file
      ∧ (added = [] → (Events.main file posts).1 = file)
      ∧ Forall (λ event, ∃ post message,
                  post ∈ posts ∧ post !! "message" = Some (VStr message)
                  ∧ Events.post_to_json message = Ok event) added
      ∧ (NoDup (event_titles (default [] file)) →
         NoDup (event_titles (added ++ default [] file))).
Proof.
  induction posts as [|post posts IH]; intros file.
  - exists []. by eauto.
  - cbn [Events.main].
    pose proof (process_post_file file post) as Hstep.
    destruct (Events.process_post file post) as [written|e] eqn:Hpost.
    + destruct (IH (Events.file_after file (Ok written)))
        as (added & Hadded & Hnone & Hfrom & Hnodup).
      assert (Forall (λ event, ∃ post0 message,
                  post0 ∈ post :: posts ∧ post0 !! "message" = Some (VStr message)
                  ∧ Events.post_to_json message = Ok event) added) as Hfrom'.
      { eapply Forall_impl; [done|]. intros ev (p & m & Hp & Hm & Hev).
        exists p, m. split; [by apply elem_of_cons; right|done]. }
      destruct Hstep as [Hsame|(event & message & Hmessage & Hevent & Hnew & Hfresh)].
      * rewrite Hsame in *. by exists added.
      * rewrite Hnew in *. cbn [default from_option id] in *.
        exists (added ++ [event]). rewrite <- List.app_assoc.
        split; [done|]. split; [by destruct added|]. split.
        -- apply Forall_app. split; [done|]. constructor; [|done].
           exists post, message. split; [by apply elem_of_cons; left|done].
        -- intros Hfile. apply Hnodup. unfold event_titles. simpl. by constructor.
    + exists []. by eauto.
Qed.
End EventRun.

(** X9: the main loop of [events.py] only puts events in front of the stored
    array and keeps the old ones behind them; when it adds nothing the file
    is as it was (a missing file stays missing); every event added is the
    parse of the message of a post; titles that were pairwise distinct still
    are. *)
Theorem events_run_only_prepends (file : option (list record)) (posts : list record) :
  ∃ added,
    default [] (Events.main file posts).1 = added ++ default [] file
    ∧ (added = [] → (Events.main file posts).1 = file)
    ∧ Forall (λ event, ∃ post message,
                post ∈ posts ∧ post !! "message" = Some (VStr message)
                ∧ Events.post_to_json message = Ok event) added
    ∧ (NoDup (event_titles (default [] file)) →
       NoDup (event_titles (default [] (Events.main file posts).1))).
Proof.
  destruct (events_main_file posts file) as (added & Hadded & Hnone & Hfrom & Hnodup).
  exists added. rewrite Hadded. by eauto.
Qed.

(** ** Facebook posts: category, description, record, run *)

Section Category.
Import Re.
Implicit Types (s more tail message : string) (c : ascii) (p : ascii → bool).

Lemma word_class c :
  cls_match I
    (Chars false [("A"%char, "Z"%char); ("a"%char, "z"%char);
                  ("0"%char, "9"%char); ("_"%char, "_"%char)]) c
  = is_word c.
Proof. destruct c as [[] [] [] [] [] [] [] []]; reflexivity. Qed.

Lemma take_lstrip p s :
  take_chars (String.length s - String.length (lstrip_by p s)) s = take_while p s.
Proof.
  induction s as [|c s IH]; [done|]. cbn [lstrip_by take_while].
  destruct (p c).
  - pose proof (lstrip_by_length p s) as Hle. cbn [String.length].
    replace (S (String.length s) - String.length (lstrip_by p s))
      with (S (String.length s - String.length (lstrip_by p s))) by lia.
    unfold take_chars in *. simpl. by rewrite IH.
  - by rewrite Nat.sub_diag.
Qed.

Lemma category_match_at s :
  match_at I FacebookPosts.ca_category_pattern s
  = match lit I "#CA" s with
    | Some (String c more) =>
        if is_word c
        then Some (lstrip_by is_word more, Some (String c (take_while is_word more)))
        else None
    | _ => None
    end.
Proof.
  unfold match_at, FacebookPosts.ca_category_pattern. cbn [run].
  destruct (lit I "#CA" s) as [[|c more]|]; [done| |done].
  cbn [exactly option_map]. rewrite word_class.
  destruct (is_word c) eqn:Hc; [|done].
  rewrite greedy_lstrip by eauto.
  rewrite (lstrip_by_ext _ is_word) by apply word_class.
  pose proof (take_lstrip is_word (String c more)) as Htake.
  cbn [lstrip_by take_while] in Htake. rewrite Hc in Htake. by rewrite Htake.
Qed.

Lemma search_category message c more :
  after_label I "#CA" message = Some (String c more) →
  is_word c →
  search_group I FacebookPosts.ca_category_pattern message
  = Some (String c (take_while is_word more)).
Proof.
  intros Hafter Hc%Is_true_true. unfold search_group.
  assert (search I FacebookPosts.ca_category_pattern message
          = Some (lstrip_by is_word more, Some (String c (take_while is_word more))))
    as ->; [|done].
  induction message as [|a message IH]; cbn [search after_label] in *;
    rewrite category_match_at.
  - destruct (lit I "#CA" "") as [t|]; [|done]. injection Hafter as ->. by rewrite Hc.
  - destruct (lit I "#CA" (String a message)) as [t|].
    + injection Hafter as ->. by rewrite Hc.
    + by apply IH.
Qed.

Lemma search_category_absent message :
  after_label I "#CA" message = None →
  search_group I FacebookPosts.ca_category_pattern message = None.
Proof.
  intros Hafter. unfold search_group.
  assert (search I FacebookPosts.ca_category_pattern message = None) as ->; [|done].
  induction message as [|a message IH]; cbn [search after_label] in *;
    rewrite category_match_at.
  - by destruct (lit I "#CA" "").
  - destruct (lit I "#CA" (String a message)); [done|]. by apply IH.
Qed.
End Category.

Section Description.
Import Re.
Implicit Types (s more tail message : string) (c : ascii) (p : ascii → bool).

Lemma lstrip_by_all p s : (∀ a, p a = true) → lstrip_by p s = "".
Proof. intros Hp. induction s as [|c s IH]; [done|]. simpl. by rewrite Hp. Qed.

Lemma lstrip_by_idemp p s : lstrip_by p (lstrip_by p s) = lstrip_by p s.
Proof.
  induction s as [|c s IH]; [done|]. simpl.
  destruct (p c) eqn:Hc; [done|]. simpl. by rewrite Hc.
Qed.

Lemma take_all s : take_chars (String.length s - 0) s = s.
Proof.
  rewrite Nat.sub_0_r. unfold take_chars.
  induction s as [|c s IH]; [done|]. simpl. by rewrite IH.
Qed.

Lemma description_match_at s tail c more :
  lit I_S "Description:" s = Some tail →
  lstrip_by is_space tail = String c more →
  match_at I_S FacebookPosts.description_pattern s = Some ("", Some (String c more)).
Proof.
  intros Hlit Htail.
  unfold match_at, FacebookPosts.description_pattern, labelled. cbn [run].
  rewrite Hlit. cbn [exactly option_map].
  change (cls_match I_S Space) with is_space.
  rewrite greedy_lstrip; rewrite Htail; cbn [exactly cls_match DOTALL I_S orb].
  - rewrite greedy_lstrip by eauto. rewrite lstrip_by_all by done.
    by rewrite take_all.
  - rewrite greedy_lstrip by eauto. eauto.
Qed.

Lemma lit_dotall label s : lit I_S label s = lit I label s.
Proof.
  revert s. induction label as [|a label IH]; intros s; [done|].
  destruct s as [|b s]; [done|]. cbn [lit]. by rewrite IH.
Qed.

Lemma after_label_dotall label s : after_label I_S label s = after_label I label s.
Proof.
  induction s as [|c s IH]; cbn [after_label]; rewrite lit_dotall; [done|].
  by rewrite IH.
Qed.

Lemma match_at_description_none s :
  lit I_S "Description:" s = None →
  match_at I_S FacebookPosts.description_pattern s = None.
Proof.
  intros Hlit. unfold match_at, FacebookPosts.description_pattern, labelled.
  cbn [run]. by rewrite Hlit.
Qed.

Lemma search_description message tail c more :
  after_label I "Description:" message = Some tail →
  lstrip_by is_space tail = String c more →
  search I_S FacebookPosts.description_pattern message = Some ("", Some (String c more)).
Proof.
  rewrite <- after_label_dotall. intros Hafter Htail.
  induction message as [|a message IH]; cbn [search after_label] in *.
  - destruct (lit I_S "Description:" "") eqn:Hlit; [|done]. injection Hafter as ->.
    by rewrite (description_match_at _ _ _ _ Hlit Htail).
  - destruct (lit I_S "Description:" (String a message)) eqn:Hlit.
    + injection Hafter as ->. by rewrite (description_match_at _ _ _ _ Hlit Htail).
    + rewrite match_at_description_none by done. by apply IH.
Qed.
End Description.

(** X10: in [facebook_posts.py], when something other than white space
    follows the first "Description:" (in any case), the description is
    everything from there up to the end of the message, later lines and
    hashtags included, trimmed. *)
Theorem description_runs_to_the_end (message tail : string) :
  after_label Re.I "Description:" message = Some tail →
  lstrip_by is_space tail ≠ "" →
  FacebookPosts.description_of message = VStr (strip tail).
Proof.
  intros Hafter Htail.
  destruct (lstrip_by is_space tail) as [|c more] eqn:Hstrip; [done|].
  unfold FacebookPosts.description_of, Re.search_group.
  rewrite (search_description _ _ _ _ Hafter Hstrip). cbn [from_option id].
  unfold strip. by rewrite <- Hstrip, lstrip_by_idemp.
Qed.

Lemma description_runs_to_the_end_witness :
  FacebookPosts.description_of
    ("Title: Open day" +:+ nl +:+ "Description: Come and see." +:+ nl +:+ "#posts #A001")
  = VStr (strip (" Come and see." +:+ nl +:+ "#posts #A001")).
Proof.
  apply (description_runs_to_the_end
           ("Title: Open day" +:+ nl +:+ "Description: Come and see." +:+ nl +:+ "#posts #A001")
           (" Come and see." +:+ nl +:+ "#posts #A001")).
  - vm_compute. reflexivity.
  - vm_compute. discriminate.
Defined.

Section CleanPost.
Implicit Types (message k : string) (post clean : record)
  (authors : gmap (option string) value).

Lemma enrich_author_field authors message post :
  post !! "author" = None →
  FacebookPosts.enrich authors message post !! "author"
  = FacebookPosts.author_key message ≫= λ author_id, authors !! Some author_id.
Proof.
  intros Hnone. unfold FacebookPosts.enrich.
  destruct (Re.search_group Re.I FacebookPosts.ca_category_pattern message);
    [rewrite lookup_insert_ne by done|];
    destruct (FacebookPosts.author_key message) as [author_id|]; cbn; try done;
    destruct (authors !! Some author_id); by simplify_map_eq.
Qed.

Lemma enrich_category_field authors message post :
  post !! "category" = None →
  FacebookPosts.enrich authors message post !! "category"
  = VStr <$> Re.search_group Re.I FacebookPosts.ca_category_pattern message.
Proof.
  intros Hnone. unfold FacebookPosts.enrich.
  destruct (Re.search_group Re.I FacebookPosts.ca_category_pattern message);
    [by rewrite lookup_insert_eq|].
  destruct (FacebookPosts.author_key message) as [author_id|]; [|done].
  destruct (authors !! Some author_id); by simplify_map_eq.
Qed.

Lemma clean_post_record authors post message post_id created_time permalink_url :
  post !! "message" = Some (VStr message) →
  message ≠ "" →
  post !! "id" = Some post_id →
  post !! "created_time" = Some created_time →
  post !! "permalink_url" = Some permalink_url →
  ∃ clean,
    FacebookPosts.clean_post authors post = Ok (Some clean)
    ∧ clean !! "id" = Some post_id
    ∧ clean !! "title" = Some (VStr (FacebookPosts.title_of message))
    ∧ clean !! "description" = Some (FacebookPosts.description_of message)
    ∧ clean !! "created_time" = Some created_time
    ∧ clean !! "permalink_url" = Some permalink_url
    ∧ clean !! "full_picture" = Some (get post "full_picture")
    ∧ clean !! "author" = FacebookPosts.enrich authors message post !! "author"
    ∧ clean !! "category" = FacebookPosts.enrich authors message post !! "category"
    ∧ dom clean ⊆ list_to_set ["id"; "title"; "description"; "created_time";
                               "permalink_url"; "full_picture"; "author"; "category"].
Proof.
  intros Hmessage Hnonempty Hid Htime Hlink.
  unfold FacebookPosts.clean_post. rewrite Hmessage.
  cbn [from_option id truthy].
  apply String.eqb_neq in Hnonempty. rewrite Hnonempty.
  cbn [negb as_str bind]. unfold item.
  rewrite !enrich_lookup by done. rewrite Hid, Htime, Hlink. cbn [bind].
  unfold get. rewrite (enrich_lookup _ _ _ "full_picture") by done.
  eexists. split; [reflexivity|].
  destruct (FacebookPosts.enrich authors message post !! "author");
    destruct (FacebookPosts.enrich authors message post !! "category");
    simplify_map_eq; repeat split; try done;
    rewrite ?dom_insert_L, dom_empty_L; set_solver.
Qed.
End CleanPost.

Section CategoryNext.
Import Re.
Implicit Types (s more tail message : string) (c : ascii).

(** No "#CA" starts on the "C" or the "A" of a "#CA". *)
Lemma search_behind_CA s tail :
  lit I "#CA" s = Some tail →
  match_at I FacebookPosts.ca_category_pattern s = None →
  search I FacebookPosts.ca_category_pattern s
  = search I FacebookPosts.ca_category_pattern tail.
Proof.
  intros Hlit Hnone.
  destruct s as [|h [|x [|y t]]]; cbn [lit] in Hlit;
    repeat match type of Hlit with
           | (if ?b then _ else _) = _ => destruct b eqn:?; [|done]
           end; try done.
  injection Hlit as ->.
  assert (∀ a b u, char_match I a b = true → char_match I "#" a = false →
            match_at I FacebookPosts.ca_category_pattern (String b u) = None) as Hno.
  { intros a b u Hab Ha. rewrite category_match_at. cbn [lit].
    unfold char_match in *. cbn [IGNORECASE I] in *.
    apply Ascii.eqb_eq in Hab. rewrite <- Hab. by rewrite Ha. }
  cbn [search]. rewrite Hnone.
  rewrite (Hno "C"%char x) by done.
  rewrite (Hno "A"%char y) by done.
  by destruct tail.
Qed.

Lemma search_category_next message tail :
  after_label I "#CA" message = Some tail →
  match tail with
  | String c _ => is_word c = false
  | EmptyString => True
  end →
  search_group I FacebookPosts.ca_category_pattern message
  = search_group I FacebookPosts.ca_category_pattern tail.
Proof.
  intros Hafter Htail. unfold search_group.
  assert (search I FacebookPosts.ca_category_pattern message
          = search I FacebookPosts.ca_category_pattern tail) as ->; [|done].
  assert (∀ s, lit I "#CA" s = Some tail →
            match_at I FacebookPosts.ca_category_pattern s = None) as Hnone.
  { intros s Hlit. rewrite category_match_at, Hlit.
    destruct tail as [|c more]; [done|]. by rewrite Htail. }
  induction message as [|a message IH]; cbn [after_label] in Hafter.
  - destruct (lit I "#CA" "") eqn:Hlit; [|done]. injection Hafter as ->.
    apply search_behind_CA; [done|by apply Hnone].
  - destruct (lit I "#CA" (String a message)) eqn:Hlit.
    + injection Hafter as ->. apply search_behind_CA; [done|by apply Hnone].
    + cbn [search]. rewrite category_match_at, Hlit. by apply IH.
Qed.
End CategoryNext.

(** X11: the category is the run of letters, digits and underscores that
    follows "#CA", compared in any case: the first "#CA" of the message when
    such a character stands right after it, and otherwise what is found in
    the text after that "#CA"; a message without "#CA" has no category.
    [facebook_posts.py] and [news.py] agree. *)
Theorem category_is_the_word_after_CA (message : string) :
  let found := Re.search_group Re.I FacebookPosts.ca_category_pattern message in
  Re.search_group Re.I News.ca_category_pattern message = found
  ∧ match after_label Re.I "#CA" message with
    | Some (String c more) =>
        if is_word c
        then found = Some (String c (take_while is_word more))
        else found
             = Re.search_group Re.I FacebookPosts.ca_category_pattern (String c more)
    | Some EmptyString | None => found = None
    end.
Proof.
  intros found. split; [done|]. unfold found.
  destruct (after_label Re.I "#CA" message) as [[|c more]|] eqn:Hafter.
  - by rewrite (search_category_next _ _ Hafter).
  - destruct (is_word c) eqn:Hc.
    + apply search_category; [done|]. by rewrite Hc.
    + by apply search_category_next.
  - by apply search_category_absent.
Qed.

(** "#Canada" gives the category "nada"; a "#CA" without a word after it
    is passed over. *)
Example category_of_Canada :
  FacebookPosts.ca_category_pattern = News.ca_category_pattern
  ∧ Re.search_group Re.I News.ca_category_pattern "Trip to #Canada! #CAtravel"
    = Some "nada"
  ∧ Re.search_group Re.I News.ca_category_pattern "#CA! see #CAnews" = Some "news"
  ∧ Re.search_group Re.I News.ca_category_pattern "#CA" = None.
Proof. by vm_compute. Qed.

(** X12: the clean record of a post carries the author found in the catalog
    under the upper-cased hashtag id, and no author when the id is unknown
    or the message has none; it carries the category hashtag, the picture
    (null when the post has none) and never the raw message. *)
Theorem author_attached_when_known (authors : gmap (option string) value)
    (post : record) (message : string) (post_id created_time permalink_url : value) :
  post !! "message" = Some (VStr message) →
  message ≠ "" →
  post !! "id" = Some post_id →
  post !! "created_time" = Some created_time →
  post !! "permalink_url" = Some permalink_url →
  post !! "author" = None →
  post !! "category" = None →
  ∃ clean,
    FacebookPosts.clean_post authors post = Ok (Some clean)
    ∧ clean !! "author"
      = FacebookPosts.author_key message ≫= (λ author_id, authors !! Some author_id)
    ∧ clean !! "category"
      = VStr <$> Re.search_group Re.I FacebookPosts.ca_category_pattern message
    ∧ clean !! "full_picture" = Some (get post "full_picture")
    ∧ clean !! "message" = None
    ∧ dom clean ⊆ list_to_set ["id"; "title"; "description"; "created_time";
                               "permalink_url"; "full_picture"; "author"; "category"].
Proof.
  intros Hmessage Hnonempty Hid Htime Hlink Hauthor Hcategory.
  destruct (clean_post_record authors post message _ _ _
              Hmessage Hnonempty Hid Htime Hlink)
    as (clean & Hclean & _ & _ & _ & _ & _ & Hpicture & Ha & Hc & Hdom).
  exists clean. split; [done|].
  rewrite Ha, Hc, enrich_author_field, enrich_category_field by done.
  repeat split; try done.
  apply not_elem_of_dom. intros Hin. apply Hdom in Hin. set_solver.
Qed.

Lemma author_attached_when_known_witness :
  let jane : value := VDict {["id" := VStr "A007"; "name" := VStr "Jane"]} in
  let authors : gmap (option string) value := {[Some "A007" := jane]} in
  let message := "Launch day #posts #a007" in
  let post : record :=
    {["id" := VStr "1"; "message" := VStr message;
      "created_time" := VStr "2025-01-01";
      "permalink_url" := VStr "https://fb.com/1"]} in
  ∃ clean,
    FacebookPosts.clean_post authors post = Ok (Some clean)
    ∧ clean !! "author"
      = FacebookPosts.author_key message ≫= (λ author_id, authors !! Some author_id)
    ∧ clean !! "category"
      = VStr <$> Re.search_group Re.I FacebookPosts.ca_category_pattern message
    ∧ clean !! "full_picture" = Some (get post "full_picture")
    ∧ clean !! "message" = None
    ∧ dom clean ⊆ list_to_set ["id"; "title"; "description"; "created_time";
                               "permalink_url"; "full_picture"; "author"; "category"].
Proof.
  intros jane authors message post.
  apply (author_attached_when_known authors post message (VStr "1")
           (VStr "2025-01-01") (VStr "https://fb.com/1")).
  - vm_compute. reflexivity.
  - vm_compute. discriminate.
  - vm_compute. reflexivity.
  - vm_compute. reflexivity.
  - vm_compute. reflexivity.
  - vm_compute. reflexivity.
  - vm_compute. reflexivity.
Defined.

Section FacebookRun.
Implicit Types (posts kept : list record) (post clean : record)
  (authors : gmap (option string) value).

Lemma process_post_kept authors post clean :
  FacebookPosts.process_post authors post = Ok (Some clean) →
  ∃ message,
    post !! "message" = Some (VStr message)
    ∧ contains "#posts" (lower message) = true
    ∧ FacebookPosts.clean_post authors post = Ok (Some clean).
Proof.
  unfold FacebookPosts.process_post.
  destruct (FacebookPosts.clean_post authors post) as [[c|]|] eqn:Hclean; try done.
  cbn [bind].
  assert (∃ message, post !! "message" = Some (VStr message)) as [message Hmessage].
  { unfold FacebookPosts.clean_post in Hclean.
    destruct (post !! "message") as [[|message| |]|]; cbn in Hclean; try done;
      try (by eexists); by destruct (negb _). }
  rewrite Hmessage. cbn [from_option id as_str bind].
  destruct (contains "#posts" (lower message)) eqn:Htag; [|done].
  intros Hkept. injection Hkept as <-. by exists message.
Qed.

Lemma collect_kept authors posts :
  ∀ kept,
    FacebookPosts.collect authors posts = Ok kept →
    Forall (λ clean, ∃ post message,
              post ∈ posts
              ∧ post !! "message" = Some (VStr message)
              ∧ contains "#posts" (lower message) = true
              ∧ FacebookPosts.clean_post authors post = Ok (Some clean)) kept
    ∧ length kept ≤ length posts.
Proof.
  induction posts as [|post posts IH]; intros kept Hcollect.
  - injection Hcollect as <-. by split.
  - cbn [FacebookPosts.collect] in Hcollect.
    destruct (FacebookPosts.process_post authors post) as [k|] eqn:Hpost; [|done].
    cbn [bind] in Hcollect.
    destruct (FacebookPosts.collect authors posts) as [others|]; [|done].
    cbn [bind] in Hcollect. injection Hcollect as <-.
    destruct (IH others eq_refl) as [Hfrom Hlen].
    assert (Forall (λ clean, ∃ post0 message,
              post0 ∈ post :: posts
              ∧ post0 !! "message" = Some (VStr message)
              ∧ contains "#posts" (lower message) = true
              ∧ FacebookPosts.clean_post authors post0 = Ok (Some clean)) others)
      as Hfrom'.
    { eapply Forall_impl; [done|]. intros c (p & m & Hp & Hrest). exists p, m.
      split; [by apply elem_of_cons; right|done]. }
    destruct k as [clean|]; cbn [option_list app length].
    + split; [|simpl; lia]. constructor; [|done].
      apply process_post_kept in Hpost as (message & Hm & Htag & Hclean).
      exists post, message. split; [by apply elem_of_cons; left|done].
    + split; [done|simpl; lia].
Qed.
End FacebookRun.

(** X13: when [facebook_posts.py] writes its file, the array is not empty, has
    at most one record per post, and each record is the clean record of a post
    of the feed whose message contains #posts in any case. *)
Theorem facebook_posts_written (authors_data posts written : list record) :
  FacebookPosts.main authors_data posts = Ok (Some written) →
  written ≠ []
  ∧ length written ≤ length posts
  ∧ ∃ authors_dict,
      index_by_id ∅ authors_data = Ok authors_dict
      ∧ Forall (λ clean, ∃ post message,
                  post ∈ posts
                  ∧ post !! "message" = Some (VStr message)
                  ∧ contains "#posts" (lower message) = true
                  ∧ FacebookPosts.clean_post authors_dict post = Ok (Some clean))
          written.
Proof.
  unfold FacebookPosts.main.
  destruct (index_by_id ∅ authors_data) as [authors_dict|]; [|done]. cbn [bind].
  destruct (FacebookPosts.collect authors_dict posts) as [kept|] eqn:Hcollect; [|done].
  cbn [bind]. destruct kept as [|clean kept]; [done|].
  intros Hmain. injection Hmain as <-.
  destruct (collect_kept _ _ _ Hcollect) as [Hfrom Hlen].
  split; [done|]. split; [done|]. by exists authors_dict.
Qed.

Lemma facebook_posts_written_witness :
  let post : record :=
    {["id" := VStr "1"; "message" := VStr "Launch day #posts";
      "created_time" := VStr "2025-01-01";
      "permalink_url" := VStr "https://fb.com/1"]} in
  let other : record :=
    {["id" := VStr "2"; "message" := VStr "Weekly #news";
      "created_time" := VStr "2025-01-02";
      "permalink_url" := VStr "https://fb.com/2"]} in
  let written : list record :=
    [ {["id" := VStr "1"; "title" := VStr "Launch day #posts"; "description" := VNone;
        "created_time" := VStr "2025-01-01";
        "permalink_url" := VStr "https://fb.com/1"; "full_picture" := VNone]} ] in
  written ≠ []
  ∧ length written ≤ length [post; other]
  ∧ ∃ authors_dict,
      index_by_id ∅ [] = Ok authors_dict
      ∧ Forall (λ clean, ∃ p message,
                  p ∈ [post; other]
                  ∧ p !! "message" = Some (VStr message)
                  ∧ contains "#posts" (lower message) = true
                  ∧ FacebookPosts.clean_post authors_dict p = Ok (Some clean))
          written.
Proof.
  intros post other written.
  apply (facebook_posts_written [] [post; other] written).
  vm_compute. reflexivity.
Defined.

(** ** News *)

Section NewsPosts.
Implicit Types (message k : string) (post kept : record)
  (authors : gmap (option string) value).

Lemma news_enrich_lookup authors message post k :
  k ≠ "author" → k ≠ "category" →
  News.enrich authors message post !! k = post !! k.
Proof.
  intros Hauthor Hcategory. unfold News.enrich.
  destruct (Re.search_group Re.I News.ca_category_pattern message);
    [rewrite lookup_insert_ne by done|];
    destruct (News.author_key message); try done;
    destruct (authors !! _); try done; by rewrite lookup_insert_ne.
Qed.
End NewsPosts.

(** X14: a post kept by [news.py] has a message that contains #news in any
    case; it is the raw post, message included, with at most author and
    category added; the category line is printed exactly when the kept post
    has a category. *)
Theorem news_posts_keep_the_raw_post (authors : gmap (option string) value)
    (post kept : record) (printed : list News.message) :
  News.process_post authors post = Ok (printed, Some kept) →
  ∃ message,
    post !! "message" = Some (VStr message)
    ∧ contains "#news" (lower message) = true
    ∧ kept = News.enrich authors message post
    ∧ (∀ k, k ≠ "author" → k ≠ "category" → kept !! k = post !! k)
    ∧ printed = match kept !! "category" with
                | Some c => [News.Category c]
                | None => []
                end.
Proof.
  unfold News.process_post.
  destruct (post !! "message") as [v|] eqn:Hmessage; cbn [from_option id].
  - destruct v as [|message| |]; cbn [as_str bind]; try done.
    destruct (contains "#news" (lower message)) eqn:Htag; [|done].
    intros Hkept. injection Hkept as <- <-.
    exists message. repeat split; try done.
    intros k Hauthor Hcategory. by apply news_enrich_lookup.
  - cbn [as_str bind]. by replace (contains "#news" (lower "")) with false.
Qed.

Lemma news_posts_keep_the_raw_post_witness :
  let post : record :=
    {["id" := VStr "3"; "message" := VStr "Release notes #news #CArtos"]} in
  let kept : record := <["category" := VStr "rtos"]> post in
  ∃ message,
    post !! "message" = Some (VStr message)
    ∧ contains "#news" (lower message) = true
    ∧ kept = News.enrich ∅ message post
    ∧ (∀ k, k ≠ "author" → k ≠ "category" → kept !! k = post !! k)
    ∧ [News.Category (VStr "rtos")]
      = match kept !! "category" with
        | Some c => [News.Category c]
        | None => []
        end.
Proof.
  intros post kept.
  apply (news_posts_keep_the_raw_post ∅ post kept [News.Category (VStr "rtos")]).
  vm_compute. reflexivity.
Defined.

(** ** Companies: unique ids, and a second run *)

Section CompanyIdsMore.
Implicit Types (companies : list record) (company : record) (n m : nat).

Lemma to_uint_normal n : Decimal.unorm (Nat.to_uint n) = Nat.to_uint n.
Proof.
  rewrite <- (DecimalNat.Unsigned.of_to n) at 2.
  by rewrite DecimalNat.Unsigned.to_of.
Qed.

Lemma string_of_uint_inj d d' :
  NilEmpty.string_of_uint d = NilEmpty.string_of_uint d' → d = d'.
Proof.
  intros Heq. pose proof (NilEmpty.usu d) as Hd. rewrite Heq, NilEmpty.usu in Hd.
  by injection Hd.
Qed.

Lemma digits_inj n m :
  NilEmpty.string_of_uint (Nat.to_uint n) = NilEmpty.string_of_uint (Nat.to_uint m) →
  n = m.
Proof. intros Heq%string_of_uint_inj. by apply DecimalNat.Unsigned.to_uint_inj. Qed.

(** A number written with two digits or more never starts with a zero. *)
Lemma digits_no_padding n s :
  2 ≤ String.length (NilEmpty.string_of_uint (Nat.to_uint n)) →
  NilEmpty.string_of_uint (Nat.to_uint n) ≠ String "0" s.
Proof.
  intros Hlen Heq. pose proof (to_uint_normal n) as Hnorm.
  destruct (Nat.to_uint n) as [|u| | | | | | | | |] eqn:Hu; try done.
  rewrite unorm_D0 in Hnorm. unfold Decimal.unorm in Hnorm.
  destruct (Decimal.nzhead u) eqn:Hhead; try done.
  - injection Hnorm as <-. simpl in Hlen. lia.
  - by apply (nzhead_nonzero u u0).
Qed.

Lemma fmt_02d_inj n m : Companies.fmt_02d n = Companies.fmt_02d m → n = m.
Proof.
  unfold Companies.fmt_02d.
  destruct (String.length (NilEmpty.string_of_uint (Nat.to_uint n)) <? 2) eqn:Hn;
    destruct (String.length (NilEmpty.string_of_uint (Nat.to_uint m)) <? 2) eqn:Hm;
    intros Heq.
  - apply digits_inj. by apply (inj (String.app "0")).
  - apply Nat.ltb_ge in Hm. symmetry in Heq. by apply digits_no_padding in Heq.
  - apply Nat.ltb_ge in Hn. by apply digits_no_padding in Heq.
  - by apply digits_inj.
Qed.

Lemma vn_id_inj n m :
  VStr ("COMVN" +:+ Companies.fmt_02d n) = VStr ("COMVN" +:+ Companies.fmt_02d m) →
  n = m.
Proof.
  intros Heq. apply fmt_02d_inj, (inj (String.app "COMVN")). congruence.
Qed.

Lemma ob_id_inj n m :
  VStr ("COMOB" +:+ Companies.fmt_02d n) = VStr ("COMOB" +:+ Companies.fmt_02d m) →
  n = m.
Proof.
  intros Heq. apply fmt_02d_inj, (inj (String.app "COMOB")). congruence.
Qed.

Lemma vn_id_is_no_ob_id s t : VStr ("COMVN" +:+ s) ≠ VStr ("COMOB" +:+ t).
Proof. intros Heq. injection Heq as Heq. discriminate Heq. Qed.

Lemma assign_ids_fresh companies :
  ∀ vn_count ob_count,
    Forall (λ company, company !! "id" = None) companies →
    NoDup ((λ company, get company "id")
             <$> Companies.assign_ids vn_count ob_count companies)
    ∧ Forall
        (λ company,
           (∃ n, vn_count ≤ n
                 ∧ get company "id" = VStr ("COMVN" +:+ Companies.fmt_02d n))
           ∨ (∃ n, ob_count ≤ n
                   ∧ get company "id" = VStr ("COMOB" +:+ Companies.fmt_02d n)))
        (Companies.assign_ids vn_count ob_count companies).
Proof.
  induction companies as [|company companies IH]; intros vn ob Hfresh.
  - split; constructor.
  - apply Forall_cons in Hfresh as [Hnone Hfresh].
    cbn [Companies.assign_ids].
    assert (∀ cid, get (update {["id" := VStr cid]} company) "id" = VStr cid) as Hid.
    { intros cid. unfold get, update. rewrite lookup_union_r by done.
      by rewrite lookup_singleton_eq. }
    destruct (bool_decide _).
    + destruct (IH (S vn) ob Hfresh) as [Hnodup Hrange].
      cbn [fmap list_fmap]. rewrite Hid. split.
      * constructor; [|done]. intros Hin.
        apply list_elem_of_fmap in Hin as (c & Hc & Hin).
        rewrite Forall_forall in Hrange.
        destruct (Hrange c Hin) as [(n & Hn & Hcn)|(n & Hn & Hcn)];
          rewrite Hcn in Hc.
        -- apply vn_id_inj in Hc. lia.
        -- by apply vn_id_is_no_ob_id in Hc.
      * constructor.
        -- left. exists vn. by rewrite Hid.
        -- eapply Forall_impl; [done|]. intros c [(n & Hn & Hcn)|(n & Hn & Hcn)];
             [left|right]; exists n; split; try done; lia.
    + destruct (IH vn (S ob) Hfresh) as [Hnodup Hrange].
      cbn [fmap list_fmap]. rewrite Hid. split.
      * constructor; [|done]. intros Hin.
        apply list_elem_of_fmap in Hin as (c & Hc & Hin).
        rewrite Forall_forall in Hrange.
        destruct (Hrange c Hin) as [(n & Hn & Hcn)|(n & Hn & Hcn)];
          rewrite Hcn in Hc.
        -- symmetry in Hc. by apply vn_id_is_no_ob_id in Hc.
        -- apply ob_id_inj in Hc. lia.
      * constructor.
        -- right. exists ob. by rewrite Hid.
        -- eapply Forall_impl; [done|]. intros c [(n & Hn & Hcn)|(n & Hn & Hcn)];
             [left|right]; exists n; split; try done; lia.
Qed.

Lemma assign_ids_have_id companies :
  ∀ vn_count ob_count,
    Forall (λ company, is_Some (company !! "id"))
      (Companies.assign_ids vn_count ob_count companies).
Proof.
  induction companies as [|company companies IH]; intros vn ob; [constructor|].
  cbn [Companies.assign_ids].
  assert (∀ cid, is_Some (update {["id" := VStr cid]} company !! "id")) as Hid.
  { intros cid. unfold update.
    destruct (company !! "id") as [v|] eqn:Hv.
    - exists v. by apply lookup_union_Some_l.
    - rewrite lookup_union_r by done. rewrite lookup_singleton_eq. eauto. }
  destruct (bool_decide _); by constructor.
Qed.

Lemma assign_ids_keeps companies :
  ∀ vn_count ob_count,
    Forall (λ company, is_Some (company !! "id")) companies →
    Companies.assign_ids vn_count ob_count companies = companies.
Proof.
  induction companies as [|company companies IH]; intros vn ob Hall; [done|].
  apply Forall_cons in Hall as [[v Hv] Hall].
  cbn [Companies.assign_ids].
  assert (∀ cid, update {["id" := VStr cid]} company = company) as Hid.
  { intros cid. unfold update. apply map_eq. intros k.
    destruct (decide (k = "id")) as [->|Hne].
    - rewrite Hv. by apply lookup_union_Some_l.
    - rewrite lookup_union_l; [done|]. by rewrite lookup_singleton_ne. }
  destruct (bool_decide _); by rewrite Hid, IH.
Qed.
End CompanyIdsMore.

(** X15: when no company brings an id of its own, the ids of the rebuilt list
    are pairwise distinct. *)
Theorem assigned_ids_are_unique (companies : list record) :
  Forall (λ company, company !! "id" = None) companies →
  NoDup ((λ company, get company "id") <$> Companies.updated_companies companies).
Proof. intros Hfresh. by apply assign_ids_fresh. Qed.

Lemma assigned_ids_are_unique_witness :
  NoDup ((λ company, get company "id")
           <$> Companies.updated_companies
                 [ {["name" := VStr "A"; "country" := VStr "Vietnam"]};
                   {["name" := VStr "B"; "country" := VStr "Japan"]};
                   {["name" := VStr "C"; "country" := VStr "Vietnam"]} ]).
Proof.
  apply assigned_ids_are_unique. repeat constructor.
Defined.

(** X16: running [companies.py] on its own output changes nothing: every
    record already has an id and keeps it. *)
Theorem rebuild_is_idempotent (companies : list record) :
  Companies.updated_companies (Companies.updated_companies companies)
  = Companies.updated_companies companies.
Proof. apply assign_ids_keeps, assign_ids_have_id. Qed.

(** ** Roles and badges: what the enrichment leaves alone, and a second run *)

Section Roles.
Import RolesAndBadges.
Implicit Types (author : record) (m rm bm : gmap (option string) value).

Lemma index_by_id_from_catalog (xs : list record) m k v :
  index_by_id ∅ xs = Ok m → m !! k = Some v → from_catalog xs k v.
Proof.
  intros Hindex Hk.
  revert k v Hk.
  apply (index_by_id_entries xs ∅ m (from_catalog xs)); [done| |done].
  intros k v Hempty. by rewrite lookup_empty in Hempty.
Qed.

Lemma replace_role_dom rm author :
  dom (replace_role rm author).1.1 = dom author
  ∧ ∀ k, k ≠ "roles" → (replace_role rm author).1.1 !! k = author !! k.
Proof.
  unfold replace_role.
  destruct (author !! "roles") as [role_id|] eqn:Hroles; [|done].
  destruct (truthy role_id); [|done].
  destruct (find rm role_id) as [[role|]|]; try done.
  cbn [fst]. split.
  - rewrite dom_insert_L. apply elem_of_dom_2 in Hroles. set_solver.
  - intros k Hk. by rewrite lookup_insert_ne.
Qed.

Lemma replace_badges_dom bm author :
  dom (replace_badges bm author).1.1 = dom author
  ∧ ∀ k, k ≠ "badges" → (replace_badges bm author).1.1 !! k = author !! k.
Proof.
  unfold replace_badges.
  destruct (author !! "badges") as [badges|] eqn:Hbadges; [|done].
  destruct (truthy badges); [|done].
  destruct (iterate badges) as [b_ids|]; [|done].
  destruct (resolve_badges bm b_ids) as [printed [new_badges|e]]; [|done].
  cbn [fst]. split.
  - rewrite dom_insert_L. apply elem_of_dom_2 in Hbadges. set_solver.
  - intros k Hk. by rewrite lookup_insert_ne.
Qed.

Lemma enrich_author_result rm bm author :
  (enrich_author rm bm author).1.1
  = match replace_role rm author with
    | (author1, _, Ok _) => (replace_badges bm author1).1.1
    | (author1, _, Raise _) => author1
    end.
Proof.
  unfold enrich_author.
  destruct (replace_role rm author) as [[author1 printed] [[]|e]]; [|done].
  by destruct (replace_badges bm author1) as [[? ?] ?].
Qed.

(** X17: the enrichment of an author neither adds nor removes a field, and
    changes no field other than roles and badges, whatever it prints or
    raises. *)
Theorem enrichment_keeps_the_other_fields
    (role_map badge_map : gmap (option string) value) (author : record) :
  let author' := (enrich_author role_map badge_map author).1.1 in
  dom author' = dom author
  ∧ ∀ k, k ≠ "roles" → k ≠ "badges" → author' !! k = author !! k.
Proof.
  intros author'. subst author'. rewrite enrich_author_result.
  pose proof (replace_role_dom role_map author) as [Hdom Hother].
  destruct (replace_role role_map author) as [[author1 printed] [[]|e]];
    cbn [fst] in *.
  - pose proof (replace_badges_dom badge_map author1) as [Hdom' Hother'].
    split; [congruence|]. intros k Hroles Hbadges.
    by rewrite Hother', Hother.
  - split; [done|]. intros k Hroles _. by apply Hother.
Qed.

(** X18: once the role id of an author has been replaced by the role object,
    a second enrichment of that author raises [TypeError] (an object is no
    dictionary key) and leaves the author as it is: [roles_and_badges.py]
    cannot be run on its own output. *)
Theorem resolved_role_stops_a_second_run (roles : list record)
    (role_map badge_map : gmap (option string) value) (author : record)
    (role_id : string) (role : value) :
  RolesAndBadges.role_map roles = Ok role_map →
  author !! "roles" = Some (VStr role_id) →
  role_id ≠ "" →
  role_map !! Some role_id = Some role →
  let author' := (enrich_author role_map badge_map author).1.1 in
  author' !! "roles" = Some role
  ∧ enrich_author role_map badge_map author' = (author', [], Raise TypeError).
Proof.
  intros Hmap Hroles Hnonempty Hfound author'.
  assert (author' !! "roles" = Some role) as Hrole.
  { subst author'. rewrite enrich_author_result. unfold replace_role.
    rewrite Hroles. cbn [truthy]. apply String.eqb_neq in Hnonempty.
    rewrite Hnonempty. cbn [negb find hash_key bind]. rewrite Hfound.
    pose proof (replace_badges_dom badge_map (<["roles" := role]> author)) as [_ Hother].
    rewrite Hother by done. by rewrite lookup_insert_eq. }
  split; [done|].
  apply (index_by_id_from_catalog roles) in Hfound as (b & _ & -> & _ & [i Hi]);
    [|done].
  unfold enrich_author, replace_role. rewrite Hrole.
  assert (truthy (VDict b) = true) as ->; [|done].
  cbn [truthy]. apply negb_true_iff, Nat.eqb_neq. intros Hsize.
  apply map_size_empty_iff in Hsize. by rewrite Hsize, lookup_empty in Hi.
Qed.

End Roles.

Lemma resolved_role_stops_a_second_run_witness :
  let admin : record := {["id" := VStr "R01"; "name" := VStr "Admin"]} in
  let role_map : gmap (option string) value := {[Some "R01" := VDict admin]} in
  let author : record := {["id" := VStr "A001"; "roles" := VStr "R01"]} in
  let author' := (RolesAndBadges.enrich_author role_map ∅ author).1.1 in
  author' !! "roles" = Some (VDict admin)
  ∧ RolesAndBadges.enrich_author role_map ∅ author' = (author', [], Raise TypeError).
Proof.
  intros admin role_map author.
  apply (resolved_role_stops_a_second_run [admin] role_map ∅ author "R01" (VDict admin)).
  - vm_compute. reflexivity.
  - vm_compute. reflexivity.
  - discriminate.
  - vm_compute. reflexivity.
Defined.

(** ** The catalog index *)

Section Index.
Implicit Types (xs : list record) (x y : record) (acc m : gmap (option string) value).

Lemma index_by_id_grows xs :
  ∀ acc m k,
    index_by_id acc xs = Ok m → is_Some (acc !! k) → is_Some (m !! k).
Proof.
  induction xs as [|x xs IH]; intros acc m k Hindex Hk.
  - by injection Hindex as <-.
  - cbn [index_by_id] in Hindex. unfold item in Hindex.
    destruct (x !! "id") as [i|]; [|done]. cbn [bind] in Hindex.
    destruct (hash_key i) as [kx|]; [|done]. cbn [bind] in Hindex.
    apply (IH _ _ k Hindex).
    destruct (decide (kx = k)) as [->|Hne].
    + rewrite lookup_insert_eq. eauto.
    + by rewrite lookup_insert_ne.
Qed.

Lemma from_catalog_id xs i v :
  from_catalog xs (Some i) v →
  ∃ y, v = VDict y ∧ y ∈ xs ∧ y !! "id" = Some (VStr i).
Proof.
  intros (b & Hb & -> & Hkey & [w Hw]). exists b. repeat split; try done.
  unfold get in Hkey. rewrite Hw in Hkey. simpl in Hkey.
  destruct w; simpl in Hkey; try done. by injection Hkey as ->.
Qed.

Lemma index_by_id_complete xs :
  ∀ acc m x i,
    index_by_id acc xs = Ok m →
    x ∈ xs →
    x !! "id" = Some (VStr i) →
    ∃ y, m !! Some i = Some (VDict y) ∧ y ∈ xs ∧ y !! "id" = Some (VStr i).
Proof.
  induction xs as [|x0 xs IH]; intros acc m x i Hindex Hx Hid.
  - by apply elem_of_nil in Hx.
  - apply elem_of_cons in Hx as [->|Hx].
    + cbn [index_by_id] in Hindex. unfold item in Hindex. rewrite Hid in Hindex.
      cbn [bind hash_key] in Hindex.
      destruct (index_by_id_grows xs _ m (Some i) Hindex) as [v Hv];
        [rewrite lookup_insert_eq; eauto|].
      assert (∀ k v, m !! k = Some v → k = Some i →
                ∃ y, v = VDict y ∧ y ∈ x0 :: xs ∧ y !! "id" = Some (VStr i)) as Hall.
      { apply (index_by_id_entries xs _ m
                 (λ k v, k = Some i →
                         ∃ y, v = VDict y ∧ y ∈ x0 :: xs ∧ y !! "id" = Some (VStr i))
                 Hindex).
        - intros k w Hk ->. rewrite lookup_insert_eq in Hk. injection Hk as <-.
          exists x0. repeat split; try done. by apply elem_of_cons; left.
        - intros k w Hfrom ->. apply from_catalog_id in Hfrom as (y & -> & Hy & Hyid).
          exists y. repeat split; try done. by apply elem_of_cons; right. }
      destruct (Hall _ _ Hv eq_refl) as (y & -> & Hy & Hyid). by exists y.
    + cbn [index_by_id] in Hindex. unfold item in Hindex.
      destruct (x0 !! "id") as [i0|]; [|done]. cbn [bind] in Hindex.
      destruct (hash_key i0) as [k0|]; [|done]. cbn [bind] in Hindex.
      destruct (IH _ _ _ _ Hindex Hx Hid) as (y & Hy & Hin & Hyid).
      exists y. repeat split; try done. by apply elem_of_cons; right.
Qed.

Lemma index_by_id_needs_ids xs :
  ∀ acc x,
    x ∈ xs → x !! "id" = None → ∃ e, index_by_id acc xs = Raise e.
Proof.
  induction xs as [|x0 xs IH]; intros acc x Hx Hid.
  - by apply elem_of_nil in Hx.
  - cbn [index_by_id]. unfold item.
    apply elem_of_cons in Hx as [->|Hx].
    + rewrite Hid. by eexists.
    + destruct (x0 !! "id") as [i0|]; [|by eexists]. cbn [bind].
      destruct (hash_key i0) as [k0|]; [|by eexists]. cbn [bind]. by eapply IH.
Qed.

Lemma same_key_same_record xs :
  ∀ x y,
    NoDup ((λ r, get r "id") <$> xs) →
    x ∈ xs → y ∈ xs → get x "id" = get y "id" → x = y.
Proof.
  induction xs as [|x0 xs IH]; intros x y Hnodup Hx Hy Heq.
  - by apply elem_of_nil in Hx.
  - cbn [fmap list_fmap] in Hnodup. apply NoDup_cons in Hnodup as [Hfresh Hnodup].
    apply elem_of_cons in Hx as [->|Hx]; apply elem_of_cons in Hy as [->|Hy].
    + done.
    + exfalso. apply Hfresh. rewrite Heq.
      by apply (list_elem_of_fmap_2 (λ r : record, get r "id")).
    + exfalso. apply Hfresh. rewrite <- Heq.
      by apply (list_elem_of_fmap_2 (λ r : record, get r "id")).
    + by apply IH.
Qed.
End Index.

(** X19: every role of the catalog whose id is a string is found in [role_map]
    under that id: the entry is a role of the catalog with that id, and the
    role itself when the ids of the catalog are pairwise distinct. *)
Theorem catalog_lookup_finds_each_role (roles : list record)
    (role_map : gmap (option string) value) (role : record) (i : string) :
  RolesAndBadges.role_map roles = Ok role_map →
  role ∈ roles →
  role !! "id" = Some (VStr i) →
  ∃ found,
    role_map !! Some i = Some (VDict found)
    ∧ found ∈ roles
    ∧ found !! "id" = Some (VStr i)
    ∧ (NoDup ((λ r, get r "id") <$> roles) → found = role).
Proof.
  intros Hmap Hrole Hid.
  destruct (index_by_id_complete roles ∅ role_map role i Hmap Hrole Hid)
    as (found & Hfound & Hin & Hfid).
  exists found. repeat split; try done.
  intros Hnodup. apply (same_key_same_record roles); try done.
  unfold get. by rewrite Hid, Hfid.
Qed.

Lemma catalog_lookup_finds_each_role_witness :
  let admin : record := {["id" := VStr "R01"; "name" := VStr "Admin"]} in
  let member : record := {["id" := VStr "R02"; "name" := VStr "Member"]} in
  let role_map : gmap (option string) value :=
    <[Some "R02" := VDict member]> {[Some "R01" := VDict admin]} in
  ∃ found,
    role_map !! Some "R02" = Some (VDict found)
    ∧ found ∈ [admin; member]
    ∧ found !! "id" = Some (VStr "R02")
    ∧ (NoDup ((λ r, get r "id") <$> [admin; member]) → found = member).
Proof.
  intros admin member role_map.
  apply (catalog_lookup_finds_each_role [admin; member] role_map member "R02").
  - vm_compute. reflexivity.
  - in_list.
  - vm_compute. reflexivity.
Defined.

(** X20: one role without an "id" in the catalog makes the building of
    [role_map] raise, before any author is touched. *)
Theorem catalog_entity_without_id_stops_the_script (roles : list record)
    (role : record) :
  role ∈ roles →
  role !! "id" = None →
  ∃ e, RolesAndBadges.role_map roles = Raise e.
Proof. intros Hrole Hid. by eapply index_by_id_needs_ids. Qed.

Lemma catalog_entity_without_id_stops_the_script_witness :
  ∃ e,
    RolesAndBadges.role_map
      [ {["id" := VStr "R01"; "name" := VStr "Admin"]}; {["name" := VStr "Guest"]} ]
    = Raise e.
Proof.
  apply (catalog_entity_without_id_stops_the_script
           [ {["id" := VStr "R01"; "name" := VStr "Admin"]}; {["name" := VStr "Guest"]} ]
           {["name" := VStr "Guest"]}).
  - in_list.
  - vm_compute. reflexivity.
Defined.

(** ** Blogs *)

(** X21: a blog whose author_id is in the author map gets the author object
    under "author" and loses "author_id"; a blog whose author_id is unknown is
    left as it is; and, when no author has a null id, enriching the result
    again changes nothing. *)
Theorem blog_enrichment (author_map : gmap (option string) value) (blog : record)
    (author_id : string) :
  blog !! "author_id" = Some (VStr author_id) →
  match author_map !! Some author_id with
  | Some author =>
      Blogs.enrich_blog author_map blog
      = Ok (delete "author_id" (<["author" := author]> blog))
  | None => Blogs.enrich_blog author_map blog = Ok blog
  end
  ∧ (author_map !! None = None →
     ∀ blog', Blogs.enrich_blog author_map blog = Ok blog' →
       Blogs.enrich_blog author_map blog' = Ok blog').
Proof.
  intros Hid.
  assert (Blogs.enrich_blog author_map blog
          = match author_map !! Some author_id with
            | Some author => Ok (delete "author_id" (<["author" := author]> blog))
            | None => Ok blog
            end) as Hstep.
  { unfold Blogs.enrich_blog, get. rewrite Hid. cbn [from_option id find hash_key bind].
    destruct (author_map !! Some author_id) as [author|]; [|done].
    rewrite lookup_insert_ne by done. by rewrite Hid. }
  split; [by destruct (author_map !! Some author_id)|].
  intros Hnull blog'. rewrite Hstep.
  destruct (author_map !! Some author_id) as [author|] eqn:Hauthor;
    intros Hblog'; injection Hblog' as <-.
  - unfold Blogs.enrich_blog, get. rewrite lookup_delete_eq.
    cbn [from_option id find hash_key bind]. by rewrite Hnull.
  - done.
Qed.

Lemma blog_enrichment_witness :
  let jane : value := VDict {["id" := VStr "A007"; "name" := VStr "Jane"]} in
  let author_map : gmap (option string) value := {[Some "A007" := jane]} in
  let blog : record := {["id" := VStr "rtos-intro"; "author_id" := VStr "A007"]} in
  match author_map !! Some "A007" with
  | Some author =>
      Blogs.enrich_blog author_map blog
      = Ok (delete "author_id" (<["author" := author]> blog))
  | None => Blogs.enrich_blog author_map blog = Ok blog
  end
  ∧ (author_map !! None = None →
     ∀ blog', Blogs.enrich_blog author_map blog = Ok blog' →
       Blogs.enrich_blog author_map blog' = Ok blog').
Proof.
  intros jane author_map blog.
  apply (blog_enrichment author_map blog "A007"). vm_compute. reflexivity.
Defined.

(** X22: when the author catalog has an author whose id is null, a blog
    without "author_id" raises [KeyError] at [del blog["author_id"]]. *)
Theorem author_without_id_breaks_blogs (author_map : gmap (option string) value)
    (blog : record) (author : value) :
  author_map !! None = Some author →
  blog !! "author_id" = None →
  Blogs.enrich_blog author_map blog = Raise (KeyError "author_id").
Proof.
  intros Hnull Hid. unfold Blogs.enrich_blog, get. rewrite Hid.
  cbn [from_option id find hash_key bind]. rewrite Hnull.
  rewrite lookup_insert_ne by done. by rewrite Hid.
Qed.

Lemma author_without_id_breaks_blogs_witness :
  let nobody : value := VDict {["id" := VNone; "name" := VStr "Nobody"]} in
  Blogs.enrich_blog {[None := nobody]} {["id" := VStr "rtos-intro"]}
  = Raise (KeyError "author_id").
Proof.
  intros nobody.
  apply (author_without_id_breaks_blogs {[None := nobody]}
           {["id" := VStr "rtos-intro"]} nobody).
  - vm_compute. reflexivity.
  - vm_compute. reflexivity.
Defined.

Section BlogsRun.
Implicit Types (blogs out : list record) (m : gmap (option string) value).

Lemma enrich_blog_other m blog blog' k :
  Blogs.enrich_blog m blog = Ok blog' →
  k ≠ "author" → k ≠ "author_id" → blog' !! k = blog !! k.
Proof.
  unfold Blogs.enrich_blog. intros Hblog Hauthor Hid.
  destruct (find m (get blog "author_id")) as [[author|]|]; cbn [bind] in Hblog.
  - destruct (_ !! "author_id"); [|done]. injection Hblog as <-.
    rewrite lookup_delete_ne by done. by rewrite lookup_insert_ne.
  - by injection Hblog as <-.
  - done.
Qed.

Lemma enrich_all_fields m blogs :
  ∀ out,
    Blogs.enrich_all m blogs = Ok out →
    Forall2 (λ blog blog',
               Blogs.enrich_blog m blog = Ok blog') blogs out.
Proof.
  induction blogs as [|blog blogs IH]; intros out Hall.
  - injection Hall as <-. constructor.
  - cbn [Blogs.enrich_all] in Hall.
    destruct (Blogs.enrich_blog m blog) as [blog'|] eqn:Hblog; [|done].
    cbn [bind] in Hall.
    destruct (Blogs.enrich_all m blogs) as [rest|]; [|done].
    cbn [bind] in Hall. injection Hall as <-. constructor; [done|by apply IH].
Qed.
End BlogsRun.

(** X23: [blogs.py] writes back as many blogs as it read, in the same order,
    and changes no field of a blog other than author and author_id. *)
Theorem blogs_keep_their_other_fields (blogs authors out : list record) :
  Blogs.main blogs authors = Ok out →
  length out = length blogs
  ∧ ∀ i blog blog',
      blogs !! i = Some blog → out !! i = Some blog' →
      ∀ k, k ≠ "author" → k ≠ "author_id" → blog' !! k = blog !! k.
Proof.
  unfold Blogs.main. destruct (index_by_id ∅ authors) as [m|]; [|done].
  cbn [bind]. intros Hall%enrich_all_fields. split.
  - symmetry. by eapply Forall2_length.
  - intros i blog blog' Hblog Hblog' k Hauthor Hid.
    pose proof (Forall2_lookup_lr _ blogs out i blog blog' Hall Hblog Hblog') as Hstep.
    simpl in Hstep. by apply (enrich_blog_other m blog blog' k Hstep).
Qed.

Lemma blogs_keep_their_other_fields_witness :
  let jane : record := {["id" := VStr "A007"; "name" := VStr "Jane"]} in
  let blog : record := {["id" := VStr "rtos-intro"; "author_id" := VStr "A007"]} in
  let out : list record := [ {["id" := VStr "rtos-intro"; "author" := VDict jane]} ] in
  length out = length [blog]
  ∧ ∀ i b b',
      [blog] !! i = Some b → out !! i = Some b' →
      ∀ k, k ≠ "author" → k ≠ "author_id" → b' !! k = b !! k.
Proof.
  intros jane blog out.
  apply (blogs_keep_their_other_fields [blog] [jane] out). vm_compute. reflexivity.
Defined.
